(** * Market simulation, candle aggregation and position settlement

    A shallow embedding of the trading server (the Express handlers and the
    one-second [setInterval] tick of the server file) together with the
    properties its specification states about it.

    Conventions of the embedding:
    - a JavaScript [number] is an exact rational, one of the two
      infinities, or [NaN]; arithmetic on finite numbers is exact, so the
      rounding of IEEE doubles and the overflow of a finite result are
      outside the model;
    - a JavaScript value that may be absent is a [jsval]: [undefined],
      [null] or a number;
    - the SQLite database is a record of tables; [db.transaction] is the
      begin / commit / rollback wrapper of better-sqlite3, with storage
      faults injected through an explicit fault plan;
    - [Math.random()] and [Date.now()] are oracles passed to the tick. *)

From Stdlib Require Import QArith Qabs Lqa ZArith.
From stdpp Require Import gmap strings list fin_maps sorting.

Local Open Scope Z_scope.

(** ** JavaScript numbers and values *)

Module Js.

(** A number is [NaN], an infinity, or a finite value. Finite values are
    exact rationals: arithmetic on them is exact, so the rounding of
    binary64, the overflow of a finite result to an infinity, and the
    sign of zero are outside this model. The operations below follow
    IEEE 754 on [NaN] and the infinities. *)
Inductive num : Type :=
| NaN
| Fin (q : Q)
| PInf
| NInf.

Inductive jsval : Type :=
| Undefined
| Null
| Num (n : num).

(** ToNumber *)
Definition to_number (v : jsval) : num :=
  match v with
  | Undefined => NaN
  | Null => Fin 0
  | Num n => n
  end.

(** ToBoolean: [NaN], [0], [null] and [undefined] are falsy. *)
Definition truthy_num (n : num) : bool :=
  match n with
  | NaN => false
  | Fin q => negb (Qeq_bool q 0)
  | PInf | NInf => true
  end.

Definition truthy (v : jsval) : bool :=
  match v with
  | Undefined | Null => false
  | Num n => truthy_num n
  end.

(** [a || b] *)
Definition or_else (a b : jsval) : jsval := if truthy a then a else b.

Definition isNaN (n : num) : bool :=
  match n with NaN => true | _ => false end.

(** [typeof v === 'number'] *)
Definition is_number (v : jsval) : bool :=
  match v with Num _ => true | _ => false end.

(** An infinity of the given sign times (or divided by) a finite
    factor: the sign follows the factor, and a zero factor gives [NaN]. *)
Definition scaled_inf (positive : bool) (q : Q) : num :=
  if Qeq_bool q 0 then NaN
  else if Bool.eqb positive (Qle_bool 0 q) then PInf else NInf.

Definition add (a b : num) : num :=
  match a, b with
  | NaN, _ | _, NaN => NaN
  | Fin x, Fin y => Fin (x + y)
  | PInf, NInf | NInf, PInf => NaN
  | PInf, _ | _, PInf => PInf
  | NInf, _ | _, NInf => NInf
  end.
Definition sub (a b : num) : num :=
  match a, b with
  | NaN, _ | _, NaN => NaN
  | Fin x, Fin y => Fin (x - y)
  | PInf, PInf | NInf, NInf => NaN
  | PInf, _ | _, NInf => PInf
  | NInf, _ | _, PInf => NInf
  end.
Definition mul (a b : num) : num :=
  match a, b with
  | NaN, _ | _, NaN => NaN
  | Fin x, Fin y => Fin (x * y)
  | PInf, Fin q | Fin q, PInf => scaled_inf true q
  | NInf, Fin q | Fin q, NInf => scaled_inf false q
  | PInf, PInf | NInf, NInf => PInf
  | PInf, NInf | NInf, PInf => NInf
  end.
(** A finite number divided by zero is an infinity of its sign, and
    [0 / 0] is [NaN]; the source only ever divides by the constant 100. *)
Definition div (a b : num) : num :=
  match a, b with
  | NaN, _ | _, NaN => NaN
  | Fin x, Fin y => if Qeq_bool y 0 then scaled_inf true x else Fin (x / y)
  | Fin _, _ => Fin 0
  | PInf, Fin q => if Qle_bool 0 q then PInf else NInf
  | NInf, Fin q => if Qle_bool 0 q then NInf else PInf
  | _, _ => NaN
  end.

(** Relational operators: any comparison with [NaN] is [false]. *)
Definition lt (a b : num) : bool :=
  match a, b with
  | NaN, _ | _, NaN => false
  | Fin x, Fin y => negb (Qle_bool y x)
  | _, NInf | PInf, _ => false
  | NInf, _ | _, PInf => true
  end.
Definition le (a b : num) : bool :=
  match a, b with
  | NaN, _ | _, NaN => false
  | Fin x, Fin y => Qle_bool x y
  | NInf, _ | _, PInf => true
  | _, NInf | PInf, _ => false
  end.
Definition gt (a b : num) : bool := lt b a.
Definition ge (a b : num) : bool := le b a.

(** [Math.max] and [Math.min] on two arguments. *)
Definition max (a b : num) : num :=
  match a, b with
  | NaN, _ | _, NaN => NaN
  | Fin x, Fin y => if Qle_bool x y then Fin y else Fin x
  | PInf, _ | _, PInf => PInf
  | NInf, c | c, NInf => c
  end.
Definition min (a b : num) : num :=
  match a, b with
  | NaN, _ | _, NaN => NaN
  | Fin x, Fin y => if Qle_bool x y then Fin x else Fin y
  | NInf, _ | _, NInf => NInf
  | PInf, c | c, PInf => c
  end.

(** A thrown exception or a returned value. *)
Inductive outcome (A : Type) : Type :=
| Returned (a : A)
| Thrown.
Arguments Returned {A} a.
Arguments Thrown {A}.

End Js.

Import Js.

(** [forEach] over a list with a callback that may throw: the first
    exception ends the loop. *)
Fixpoint forEachM {S A : Type} (f : S → A → option S) (l : list A) (s : S)
  : option S :=
  match l with
  | [] => Some s
  | x :: l' => match f s x with
               | Some s' => forEachM f l' s'
               | None => None
               end
  end.

(** ** The price feed and the candle aggregator *)

Module Market.

Record Candle : Type := mkCandle {
  time : Z;
  open : num;
  high : num;
  low : num;
  close : num
}.

Definition assets : list string :=
  ["EUR/USD"; "GBP/USD"; "USD/JPY"; "BTC/USD"; "ETH/USD"; "GOLD"; "OIL"]%string.

Definition initial_prices : gmap string num :=
  list_to_map
    [("EUR/USD"%string, Fin 1.08542); ("GBP/USD"%string, Fin 1.26415);
     ("USD/JPY"%string, Fin 150.243); ("BTC/USD"%string, Fin 62450.50);
     ("ETH/USD"%string, Fin 3420.75); ("GOLD"%string, Fin 2034.50);
     ("OIL"%string, Fin 78.45)].

(** [Object.entries(timeframes)], in insertion order. *)
Definition timeframes : list (string * Z) :=
  [("1m", 60); ("5m", 300); ("15m", 900); ("30m", 1800); ("1h", 3600);
   ("3h", 10800); ("12h", 43200); ("24h", 86400)]%string.

(** The [defaults] table of the corruption guard. *)
Definition defaults : gmap string num :=
  list_to_map
    [("EUR/USD"%string, Fin 1.08542); ("GBP/USD"%string, Fin 1.26415);
     ("USD/JPY"%string, Fin 150.243); ("BTC/USD"%string, Fin 62450.50);
     ("ETH/USD"%string, Fin 3420.75); ("GOLD"%string, Fin 2034.50);
     ("OIL"%string, Fin 78.45)].

Record State : Type := mkState {
  prices : gmap string num;
  candleData : gmap string (gmap string (list Candle))
}.

(** [assets.forEach(a => { candleData[a] = {}; Object.keys(timeframes)
    .forEach(tf => candleData[a][tf] = []) })] *)
Definition initial_candleData : gmap string (gmap string (list Candle)) :=
  foldl (λ cd a,
           <[a := foldl (λ m tf, <[tf.1 := []]> m) ∅ timeframes]> cd)
        ∅ assets.

Definition initial : State :=
  {| prices := initial_prices; candleData := initial_candleData |}.

(** [prices[asset]]: a missing key reads as [undefined]. *)
Definition get (p : gmap string num) (asset : string) : jsval :=
  match p !! asset with
  | Some n => Num n
  | None => Undefined
  end.

(** [asset.includes(sub)] *)
Definition includes (sub s : string) : bool :=
  match String.index 0 sub s with Some _ => true | None => false end.

Definition volatility (asset : string) : num :=
  if includes "USD/" asset then Fin 0.0001 else Fin 0.001.

(** [candles.shift()] when [candles.length > 200] *)
Definition evict (candles : list Candle) : list Candle :=
  if (200 <? Z.of_nat (length candles)) then tail candles else candles.

(** The body of the per-timeframe callback, on one series.
    [last candles] is [candles[candles.length - 1]]; the in-place
    assignment to [lastCandle] rewrites the last element of the array. *)
Definition updateSeries (tfSeconds now : Z) (price : num)
    (candles : list Candle) : list Candle :=
  let periodStart := (now / tfSeconds) * tfSeconds in
  match last candles with
  | None =>
      evict (candles ++ [mkCandle periodStart price price price price])
  | Some lastCandle =>
      if time lastCandle <? periodStart then
        evict (candles ++ [mkCandle periodStart price price price price])
      else
        removelast candles ++
          [mkCandle (time lastCandle) (open lastCandle)
                    (max (high lastCandle) price)
                    (min (low lastCandle) price)
                    price]
  end.

(** One iteration of [Object.entries(timeframes).forEach]. Reading
    [candleData[asset][tfKey]] of a missing key throws a TypeError. *)
Definition updateTimeframe (asset : string) (now : Z) (price : num)
    (cd : gmap string (gmap string (list Candle))) (tf : string * Z)
  : option (gmap string (gmap string (list Candle))) :=
  m ← cd !! asset;
  candles ← m !! tf.1;
  Some (<[asset := <[tf.1 := updateSeries tf.2 now price candles]> m]> cd).

(** The oracles of one tick: [Math.random()] and [Date.now()] as drawn
    while the given asset is processed. *)
Record Env : Type := mkEnv {
  random : string → Q;
  dateNow : string → Z
}.

(** [defaults[asset] || 1.0] *)
Definition default_price (asset : string) : num :=
  to_number (or_else (get defaults asset) (Num (Fin 1))).

(** The body of [assets.forEach] in the tick. *)
Definition stepAsset (env : Env) (st : State) (asset : string)
  : option State :=
  let currentPrice := get (prices st) asset in
  if negb (is_number currentPrice) || isNaN (to_number currentPrice) then
    Some {| prices := <[asset := default_price asset]> (prices st);
            candleData := candleData st |}
  else
    let change :=
      mul (sub (Fin (random env asset)) (Fin 0.5))
          (mul (to_number currentPrice) (volatility asset)) in
    let prices' :=
      <[asset := add (to_number currentPrice) change]> (prices st) in
    let now := dateNow env asset / 1000 in
    let price := to_number (get prices' asset) in
    cd ← forEachM (updateTimeframe asset now price) timeframes
                  (candleData st);
    Some {| prices := prices'; candleData := cd |}.

(** The market half of the tick. *)
Definition tickMarket (env : Env) (st : State) : option State :=
  forEachM (stepAsset env) assets st.

End Market.

(** ** The database *)

Module User.
Inductive Role : Type := user | admin.
Inductive Kyc : Type := pending | verified | rejected.

Record t : Type := mk {
  email : string;
  balance : num;
  role : Role;
  kyc_status : Kyc
}.

Definition set_balance (b : num) (u : t) : t :=
  {| email := email u; balance := b; role := role u;
     kyc_status := kyc_status u |}.
End User.

Module Position.
Inductive Status : Type := open | closed.

(** [type] is the string the client sent; the server compares it with
    ['BUY'] and treats every other value as a short position. *)
Record t : Type := mk {
  id : Z;
  user_id : Z;
  asset : string;
  size : num;
  type : string;
  entry_price : num;
  take_profit : jsval;
  stop_loss : jsval;
  close_price : jsval;
  status : Status;
  pnl : num;
  created_at : Z;
  closed_at : option Z
}.

Definition is_open (p : t) : bool :=
  match status p with open => true | closed => false end.

(** [SET status = 'closed', close_price = ?, pnl = ?,
    closed_at = CURRENT_TIMESTAMP] *)
Definition set_closed (closePrice : jsval) (pnl' : num) (ts : Z) (p : t)
  : t :=
  {| id := id p; user_id := user_id p; asset := asset p; size := size p;
     type := type p; entry_price := entry_price p;
     take_profit := take_profit p; stop_loss := stop_loss p;
     close_price := closePrice; status := closed; pnl := pnl';
     created_at := created_at p; closed_at := Some ts |}.
End Position.

Module Transaction.
Inductive Kind : Type := deposit | withdrawal.
Inductive Status : Type := pending | approved | rejected.

Record t : Type := mk {
  id : Z;
  user_id : Z;
  type : Kind;
  amount : num;
  status : Status;
  method : string;
  reference : string;
  created_at : Z
}.

Definition set_status (s : Status) (x : t) : t :=
  {| id := id x; user_id := user_id x; type := type x; amount := amount x;
     status := s; method := method x; reference := reference x;
     created_at := created_at x |}.
End Transaction.

Module Store.

(** The three tables; [*_seq] is the AUTOINCREMENT counter of a table. *)
Record Db : Type := mkDb {
  users : gmap Z User.t;
  positions : list Position.t;
  positions_seq : Z;
  transactions : list Transaction.t;
  transactions_seq : Z
}.

Definition set_users (u : gmap Z User.t) (db : Db) : Db :=
  {| users := u; positions := positions db;
     positions_seq := positions_seq db;
     transactions := transactions db;
     transactions_seq := transactions_seq db |}.

Definition set_positions (ps : list Position.t) (seq : Z) (db : Db) : Db :=
  {| users := users db; positions := ps; positions_seq := seq;
     transactions := transactions db;
     transactions_seq := transactions_seq db |}.

Definition set_transactions (ts : list Transaction.t) (seq : Z) (db : Db)
  : Db :=
  {| users := users db; positions := positions db;
     positions_seq := positions_seq db;
     transactions := ts; transactions_seq := seq |}.

(** [UPDATE positions SET ... WHERE id = ?] *)
Definition update_position (f : Position.t → Position.t) (pid : Z)
    (db : Db) : Db :=
  set_positions
    (map (λ p, if Position.id p =? pid then f p else p) (positions db))
    (positions_seq db) db.

(** [UPDATE users SET balance = balance + ? WHERE id = ?] *)
Definition credit (x : num) (uid : Z) (db : Db) : Db :=
  set_users
    (alter (λ u, User.set_balance (add (User.balance u) x) u) uid
           (users db))
    db.

(** [UPDATE users SET balance = balance - ? WHERE id = ?] *)
Definition debit (x : num) (uid : Z) (db : Db) : Db :=
  set_users
    (alter (λ u, User.set_balance (sub (User.balance u) x) u) uid
           (users db))
    db.

(** [UPDATE transactions SET status = ? WHERE id = ?] *)
Definition update_transaction (f : Transaction.t → Transaction.t)
    (tid : Z) (db : Db) : Db :=
  set_transactions
    (map (λ x, if Transaction.id x =? tid then f x else x)
         (transactions db))
    (transactions_seq db) db.

(** [SELECT * FROM positions WHERE id = ? AND user_id = ?] with [.get] *)
Definition select_position (pid uid : Z) (db : Db) : option Position.t :=
  find (λ p, (Position.id p =? pid) && (Position.user_id p =? uid))
       (positions db).

(** [SELECT * FROM transactions WHERE id = ?] with [.get] *)
Definition select_transaction (tid : Z) (db : Db)
  : option Transaction.t :=
  find (λ x, Transaction.id x =? tid) (transactions db).

(** Statements that run against the database and may throw. On a throw
    the state is the one reached so far. *)
Definition Tx (A : Type) : Type := Db → Db * outcome A.

Definition ret {A : Type} (a : A) : Tx A := λ db, (db, Returned a).

Definition bind {A B : Type} (m : Tx A) (k : A → Tx B) : Tx B :=
  λ db, match m db with
        | (db', Returned a) => k a db'
        | (db', Thrown) => (db', Thrown)
        end.

(** [stmt.run(...)] of a writing statement; [fail] says whether the
    storage layer faults on it. *)
Definition run (fail : bool) (upd : Db → Db) : Tx unit :=
  λ db, if fail then (db, Thrown) else (upd db, Returned tt).

(** Where a storage fault strikes within one [db.transaction] call. *)
Record Faults : Type := mkFaults {
  on_begin : bool;
  on_write : nat → bool;
  on_commit : bool
}.

Definition no_faults : Faults :=
  {| on_begin := false; on_write := λ _, false; on_commit := false |}.

(** [db.transaction(fn)()] of better-sqlite3: BEGIN, the body, COMMIT;
    when any of them throws, ROLLBACK restores the state before BEGIN and
    the exception is thrown again. *)
Definition transaction {A : Type} (faults : Faults) (body : Tx A) : Tx A :=
  λ db,
    if on_begin faults then (db, Thrown)
    else match body db with
         | (db', Returned a) =>
             if on_commit faults then (db, Thrown) else (db', Returned a)
         | (_, Thrown) => (db, Thrown)
         end.

(** [forEach] whose callback runs statements: an exception ends the loop
    and keeps what earlier iterations committed. *)
Fixpoint forEachTx {A : Type} (f : A → Tx unit) (l : list A) : Tx unit :=
  match l with
  | [] => ret tt
  | x :: l' => bind (f x) (λ _, forEachTx f l')
  end.

End Store.

Import Store.

#[global] Instance Tx_ret : MRet Tx := @Store.ret.
#[global] Instance Tx_bind : MBind Tx := λ A B k m, Store.bind m k.

(** ** HTTP handlers and the position half of the tick *)

(** What a handler sends back. *)
Inductive Response : Type :=
| OpenOk (id : Z)                       (* { success: true, id } *)
| CloseOk (pnl : num)                   (* { success: true, pnl } *)
| SuccessMsg (message : string)         (* { success: true, message } *)
| Success                               (* { success: true } *)
| Error (status : Z) (error : string).  (* res.status(..).json({ error }) *)

(** [req.user], as decoded from the token by [authenticate]. *)
Record Auth : Type := mkAuth {
  auth_id : Z;
  auth_role : User.Role
}.

Module Trading.

(** The body of POST /api/positions/open. *)
Record OpenReq : Type := mkOpenReq {
  asset : string;
  size : num;
  type : string;
  entry_price : num;
  take_profit : jsval;
  stop_loss : jsval
}.

(** [ts] is the value of CURRENT_TIMESTAMP. Reading [user.balance] of an
    unknown user throws a TypeError. *)
Definition positions_open (ts : Z) (auth : Auth) (req : OpenReq)
  : Tx Response :=
  λ db,
    match users db !! auth_id auth with
    | None => (db, Thrown)
    | Some user =>
        let marginRequired :=
          div (mul (size req) (entry_price req)) (Fin 100) in
        if lt (User.balance user) marginRequired then
          (db, Returned (Error 400 "Insufficient margin"))
        else
          let rowid := positions_seq db + 1 in
          let row :=
            {| Position.id := rowid;
               Position.user_id := auth_id auth;
               Position.asset := asset req;
               Position.size := size req;
               Position.type := type req;
               Position.entry_price := entry_price req;
               Position.take_profit := or_else (take_profit req) Null;
               Position.stop_loss := or_else (stop_loss req) Null;
               Position.close_price := Null;
               Position.status := Position.open;
               Position.pnl := Fin 0;
               Position.created_at := ts;
               Position.closed_at := None |} in
          (set_positions (positions db ++ [row]) rowid db,
           Returned (OpenOk rowid))
    end.

(** The profit/loss computation of POST /api/positions/close. *)
Definition close_pnl (position : Position.t) (close_price : num) : num :=
  if String.eqb (Position.type position) "BUY" then
    mul (sub close_price (Position.entry_price position))
        (Position.size position)
  else
    mul (sub (Position.entry_price position) close_price)
        (Position.size position).

(** POST /api/positions/close. *)
Definition positions_close (faults : Faults) (ts : Z) (auth : Auth)
    (position_id : Z) (close_price : num) : Tx Response :=
  λ db,
    match select_position position_id (auth_id auth) db with
    | None => (db, Returned (Error 400 "Invalid position"))
    | Some position =>
        if negb (Position.is_open position) then
          (db, Returned (Error 400 "Invalid position"))
        else
          let pnl := close_pnl position close_price in
          (transaction faults
             (run (on_write faults 0)
                  (update_position
                     (Position.set_closed (Num close_price) pnl ts)
                     position_id);;
              run (on_write faults 1) (credit pnl (auth_id auth)));;
           mret (CloseOk pnl)) db
    end.

(** The threshold check of the tick: [(shouldClose, closePrice)]. *)
Definition checkTpSl (pos : Position.t) (currentPrice : jsval)
  : bool * jsval :=
  if String.eqb (Position.type pos) "BUY" then
    if truthy (Position.take_profit pos)
       && ge (to_number currentPrice) (to_number (Position.take_profit pos))
    then (true, Position.take_profit pos)
    else if truthy (Position.stop_loss pos)
            && le (to_number currentPrice)
                  (to_number (Position.stop_loss pos))
    then (true, Position.stop_loss pos)
    else (false, currentPrice)
  else
    if truthy (Position.take_profit pos)
       && le (to_number currentPrice) (to_number (Position.take_profit pos))
    then (true, Position.take_profit pos)
    else if truthy (Position.stop_loss pos)
            && ge (to_number currentPrice)
                  (to_number (Position.stop_loss pos))
    then (true, Position.stop_loss pos)
    else (false, currentPrice).

(** The profit/loss computation of the tick. *)
Definition tick_pnl (pos : Position.t) (closePrice : jsval) : num :=
  if String.eqb (Position.type pos) "BUY" then
    mul (sub (to_number closePrice) (Position.entry_price pos))
        (Position.size pos)
  else
    mul (sub (Position.entry_price pos) (to_number closePrice))
        (Position.size pos).

(** The callback of [openPositions.forEach]; [faults] gives the fault
    plan of the transaction that settles a given position id. *)
Definition checkPosition (faults : Z → Faults) (ts : Z)
    (prices : gmap string num) (pos : Position.t) : Tx unit :=
  let currentPrice := Market.get prices (Position.asset pos) in
  let '(shouldClose, closePrice) := checkTpSl pos currentPrice in
  if shouldClose then
    let pnl := tick_pnl pos closePrice in
    let f := faults (Position.id pos) in
    transaction f
      (run (on_write f 0)
           (update_position (Position.set_closed closePrice pnl ts)
                            (Position.id pos));;
       run (on_write f 1) (credit pnl (Position.user_id pos)))
  else mret tt.

(** "Check for TP/SL hits": the rows are selected once, before the loop. *)
Definition tickPositions (faults : Z → Faults) (ts : Z)
    (prices : gmap string num) : Tx unit :=
  λ db,
    let openPositions := filter (λ p, Position.is_open p = true)
                                (positions db) in
    forEachTx (checkPosition faults ts prices) openPositions db.

End Trading.

Module Wallet.

Definition new_transaction (db : Db) (uid : Z) (k : Transaction.Kind)
    (amount : num) (method reference : string) (ts : Z) : Transaction.t :=
  {| Transaction.id := transactions_seq db + 1;
     Transaction.user_id := uid;
     Transaction.type := k;
     Transaction.amount := amount;
     Transaction.status := Transaction.pending;
     Transaction.method := method;
     Transaction.reference := reference;
     Transaction.created_at := ts |}.

(** [INSERT INTO transactions (...) VALUES (?, <kind>, ?, ?, ?, 'pending')] *)
Definition insert_transaction (uid : Z) (k : Transaction.Kind)
    (amount : num) (method reference : string) (ts : Z) (db : Db) : Db :=
  set_transactions
    (transactions db ++ [new_transaction db uid k amount method reference ts])
    (transactions_seq db + 1) db.

(** POST /api/wallet/deposit. *)
Definition deposit (ts : Z) (auth : Auth) (amount : num)
    (method reference : string) : Tx Response :=
  λ db,
    (insert_transaction (auth_id auth) Transaction.deposit amount method
                        reference ts db,
     Returned (SuccessMsg "Deposit request submitted")).

(** POST /api/wallet/withdraw. *)
Definition withdraw (faults : Faults) (ts : Z) (auth : Auth) (amount : num)
    (method reference : string) : Tx Response :=
  λ db,
    match users db !! auth_id auth with
    | None => (db, Thrown)
    | Some user =>
        if lt (User.balance user) amount then
          (db, Returned (Error 400 "Insufficient balance"))
        else
          (transaction faults
             (run (on_write faults 0)
                  (insert_transaction (auth_id auth) Transaction.withdrawal
                                      amount method reference ts);;
              run (on_write faults 1) (debit amount (auth_id auth)));;
           mret (SuccessMsg "Withdrawal request submitted")) db
    end.

(** POST /api/admin/transactions/approve. *)
Definition approve (faults : Faults) (auth : Auth) (tx_id : Z)
  : Tx Response :=
  λ db,
    match auth_role auth with
    | User.user => (db, Returned (Error 403 "Forbidden"))
    | User.admin =>
        match select_transaction tx_id db with
        | Some tx =>
            match Transaction.status tx with
            | Transaction.pending =>
                (transaction faults
                   (run (on_write faults 0)
                        (update_transaction
                           (Transaction.set_status Transaction.approved)
                           tx_id);;
                    match Transaction.type tx with
                    | Transaction.deposit =>
                        run (on_write faults 1)
                            (credit (Transaction.amount tx)
                                    (Transaction.user_id tx))
                    | Transaction.withdrawal => mret tt
                    end);;
                 mret Success) db
            | _ => (db, Returned (Error 400 "Invalid transaction"))
            end
        | None => (db, Returned (Error 400 "Invalid transaction"))
        end
    end.

End Wallet.

(** ** The whole tick *)

(** Market update, then the TP/SL scan against the new prices. The
    broadcast to the WebSocket clients in between reads the state and
    changes nothing. [None] stands for an exception in the market half. *)
Definition tick (env : Market.Env) (faults : Z → Faults) (ts : Z)
    (s : Market.State * Db) : option (Market.State * (Db * outcome unit)) :=
  st ← Market.tickMarket env s.1;
  Some (st, Trading.tickPositions faults ts (Market.prices st) s.2).

(** ** Predicates of the specification *)

Module Inv.
Import Market.

(** [low ≤ open ≤ high] and [low ≤ close ≤ high], as JavaScript
    comparisons (so no field is [NaN]). *)
Definition candle_okb (c : Candle) : bool :=
  le (low c) (open c) && le (open c) (high c)
  && le (low c) (close c) && le (close c) (high c).

(** A series of the timeframe of duration [d]. *)
Record series_ok (d : Z) (l : list Candle) : Prop := mk_series_ok {
  ok_candles : Forall (λ c, candle_okb c = true) l;
  ok_increasing : StronglySorted Z.lt (time <$> l);
  ok_aligned : Forall (λ c, (d | time c)) l;
  ok_bounded : (length l ≤ 200)%nat
}.

(** [candleData[asset][tfKey]] *)
Definition series (cd : gmap string (gmap string (list Candle)))
    (asset tfKey : string) : option (list Candle) :=
  cd !! asset ≫= (λ m, m !! tfKey).

(** Every series the tick reads exists. *)
Definition wf (cd : gmap string (gmap string (list Candle))) : Prop :=
  ∀ a tf, a ∈ assets → tf ∈ timeframes → is_Some (series cd a tf.1).

(** Every series of a state is a well-formed series of its timeframe. *)
Definition state_ok (st : State) : Prop :=
  ∀ a k d l, (k, d) ∈ timeframes →
    series (candleData st) a k = Some l → series_ok d l.

(** The states the tick loop can reach from start-up. *)
Inductive reachable : State → Prop :=
| reach_initial : reachable initial
| reach_tick env st st' :
    reachable st → tickMarket env st = Some st' → reachable st'.

(** What the corruption guard of [stepAsset] tests. *)
Definition corrupt (st : State) (asset : string) : bool :=
  negb (is_number (get (prices st) asset))
  || isNaN (to_number (get (prices st) asset)).

(** No instrument holds an infinite stored price. *)
Definition finite_prices (st : State) : Prop :=
  ∀ a, a ∈ assets →
    prices st !! a ≠ Some PInf ∧ prices st !! a ≠ Some NInf.


(** The volatility coefficient as a rational. *)
Definition volatilityQ (asset : string) : Q :=
  if includes "USD/" asset then 0.0001%Q else 0.001%Q.

(** The price [stepAsset] stores, and feeds to the aggregator, for a
    healthy asset whose stored price is [p]. *)
Definition advanced (env : Env) (asset : string) (p : Q) : Q :=
  (p + (random env asset - 0.5) * (p * volatilityQ asset))%Q.

(** The price [stepAsset] stores, and feeds to the aggregator, for an
    asset whose stored price [n] passes the guard. *)
Definition stepped (env : Env) (asset : string) (n : num) : num :=
  add n (mul (sub (Fin (random env asset)) (Fin 0.5))
             (mul n (volatility asset))).

(** What one tick does to one asset: a price that passes the guard is
    stepped and folded once into each timeframe series of the asset; a
    missing or [NaN] price is replaced by the default and the series of
    the asset stay as they are. *)
Definition tick_effect (env : Env) (st st' : State) (a : string) : Prop :=
  match prices st !! a with
  | None | Some NaN =>
      prices st' !! a = Some (default_price a) ∧
      ∀ k, series (candleData st') a k = series (candleData st) a k
  | Some n =>
      let price := stepped env a n in
      prices st' !! a = Some price ∧
      ∀ k d, (k, d) ∈ timeframes →
        ∃ candles,
          series (candleData st) a k = Some candles ∧
          series (candleData st') a k =
            Some (updateSeries d (dateNow env a / 1000) price candles)
  end.

(** Two states hold the same price and series for an asset. *)
Definition same_at (a : string) (st1 st2 : State) : Prop :=
  prices st1 !! a = prices st2 !! a ∧
  ∀ k, series (candleData st1) a k = series (candleData st2) a k.
End Inv.

(** ** The profit/loss formula in the words of the specification *)

Module Spec.
(** [(closePrice - entryPrice) * size] for a long position,
    [(entryPrice - closePrice) * size] for a short one. *)
Definition pnl (long : bool) (entryPrice size closePrice : num) : num :=
  if long then mul (sub closePrice entryPrice) size
  else mul (sub entryPrice closePrice) size.

(** A threshold that is [null] or the number zero. *)
Definition unset (v : jsval) : Prop :=
  v = Null ∨ ∃ q, v = Num (Fin q) ∧ (q == 0)%Q.

(** Some storage fault strikes the two-statement transaction. *)
Definition any_fault (f : Faults) : bool :=
  on_begin f || on_write f 0 || on_write f 1 || on_commit f.



End Spec.

(** ** Concrete inputs used by the examples below *)

Module Examples.
Import Market.

(** A tick at 2023-11-14T22:13:50.500Z in which every draw of
    [Math.random()] is 0.75. *)
Definition env0 : Env :=
  {| random := λ _, 0.75%Q; dateNow := λ _, 1700000030500 |}.

(** Start-up state, but with the stored EUR/USD price corrupted. *)
Definition st_nan : State :=
  {| prices := <["EUR/USD"%string := NaN]> initial_prices;
     candleData := initial_candleData |}.


Definition c60 : Candle := mkCandle 60 (Fin 1) (Fin 3) (Fin 1) (Fin 2).

(** The long position of the specification's example: entry 1.1000,
    size 1, take-profit 1.1050. *)
Definition long_pos : Position.t :=
  {| Position.id := 1; Position.user_id := 7;
     Position.asset := "EUR/USD"; Position.size := Fin 1;
     Position.type := "BUY"; Position.entry_price := Fin 1.1000;
     Position.take_profit := Num (Fin 1.1050); Position.stop_loss := Null;
     Position.close_price := Null; Position.status := Position.open;
     Position.pnl := Fin 0; Position.created_at := 1700000000;
     Position.closed_at := None |}.

(** The short position of the specification's example: entry 2000,
    size 0.5, stop-loss 2010. *)
Definition short_pos : Position.t :=
  {| Position.id := 2; Position.user_id := 7;
     Position.asset := "GOLD"; Position.size := Fin 0.5;
     Position.type := "SELL"; Position.entry_price := Fin 2000;
     Position.take_profit := Null; Position.stop_loss := Num (Fin 2010);
     Position.close_price := Null; Position.status := Position.open;
     Position.pnl := Fin 0; Position.created_at := 1700000000;
     Position.closed_at := None |}.

(** A long position with neither threshold. *)
Definition bare_pos : Position.t :=
  {| Position.id := 3; Position.user_id := 7;
     Position.asset := "OIL"; Position.size := Fin 10;
     Position.type := "BUY"; Position.entry_price := Fin 78.45;
     Position.take_profit := Null; Position.stop_loss := Null;
     Position.close_price := Null; Position.status := Position.open;
     Position.pnl := Fin 0; Position.created_at := 1700000000;
     Position.closed_at := None |}.

(** A long position whose two thresholds are zero. *)
Definition zero_pos : Position.t :=
  {| Position.id := 4; Position.user_id := 7;
     Position.asset := "OIL"; Position.size := Fin 10;
     Position.type := "BUY"; Position.entry_price := Fin 78.45;
     Position.take_profit := Num (Fin 0);
     Position.stop_loss := Num (Fin 0);
     Position.close_price := Null; Position.status := Position.open;
     Position.pnl := Fin 0; Position.created_at := 1700000000;
     Position.closed_at := None |}.

(** A request to open a position, with a take-profit of zero. *)
Definition open_req : Trading.OpenReq :=
  {| Trading.asset := "OIL"; Trading.size := Fin 10;
     Trading.type := "BUY"; Trading.entry_price := Fin 78.45;
     Trading.take_profit := Num (Fin 0);
     Trading.stop_loss := Num (Fin 70) |}.

(** The same request for a size the balance cannot carry. *)
Definition huge_req : Trading.OpenReq :=
  {| Trading.asset := "OIL"; Trading.size := Fin 1000000;
     Trading.type := "BUY"; Trading.entry_price := Fin 78.45;
     Trading.take_profit := Null; Trading.stop_loss := Null |}.

Definition trader : User.t :=
  {| User.email := "trader@example.com"; User.balance := Fin 10000;
     User.role := User.user; User.kyc_status := User.pending |}.

Definition pending_deposit : Transaction.t :=
  {| Transaction.id := 1; Transaction.user_id := 7;
     Transaction.type := Transaction.deposit;
     Transaction.amount := Fin 250;
     Transaction.status := Transaction.pending;
     Transaction.method := "mpesa"; Transaction.reference := "REF1";
     Transaction.created_at := 1700000000 |}.

Definition pending_withdrawal : Transaction.t :=
  {| Transaction.id := 2; Transaction.user_id := 7;
     Transaction.type := Transaction.withdrawal;
     Transaction.amount := Fin 100;
     Transaction.status := Transaction.pending;
     Transaction.method := "mpesa"; Transaction.reference := "REF2";
     Transaction.created_at := 1700000000 |}.

Definition db0 : Db :=
  {| users := {[ 7 := trader ]};
     positions := [long_pos; short_pos]; positions_seq := 2;
     transactions := [pending_deposit; pending_withdrawal];
     transactions_seq := 2 |}.

Definition auth7 : Auth := {| auth_id := 7; auth_role := User.user |}.
Definition auth_admin : Auth := {| auth_id := 1; auth_role := User.admin |}.

(** The write of the balance faults, everything else succeeds. *)
Definition fault_second : Faults :=
  {| on_begin := false; on_write := λ n, Nat.eqb n 1; on_commit := false |}.
End Examples.

(** ** Read-only endpoints, the client, and further predicates *)

Module Queries.

(** GET /api/positions/active:
    [SELECT * FROM positions WHERE user_id = ? AND status = 'open'],
    the rows in table order. *)
Definition positions_active (auth : Auth) (db : Db) : list Position.t :=
  filter (λ p, Position.user_id p = auth_id auth ∧ Position.is_open p = true)
         (positions db).

End Queries.

Module Period.
Import Market.

(** The aggregation steps of successive ticks on one series: each tick
    brings its clock reading (in seconds) and its price. *)
Definition feed (d : Z) (ticks : list (Z * num)) (candles : list Candle)
  : list Candle :=
  foldl (λ l t, updateSeries d t.1 t.2 l) candles ticks.

End Period.

Module DbInv.

(** Row ids are unique and none is ahead of the AUTOINCREMENT counter of
    its table. *)
Record wf (db : Db) : Prop := mk_wf {
  wf_position_ids : NoDup (Position.id <$> positions db);
  wf_position_seq :
    Forall (λ p, Position.id p ≤ positions_seq db) (positions db);
  wf_transaction_ids : NoDup (Transaction.id <$> transactions db);
  wf_transaction_seq :
    Forall (λ x, Transaction.id x ≤ transactions_seq db) (transactions db)
}.

(** The threshold check of the tick on a row, against a price table. *)
Definition hit (prices : gmap string num) (p : Position.t) : bool :=
  (Trading.checkTpSl p (Market.get prices (Position.asset p))).1.

(** The row as the tick settles it. *)
Definition settled (ts : Z) (prices : gmap string num) (p : Position.t)
  : Position.t :=
  let closePrice :=
    (Trading.checkTpSl p (Market.get prices (Position.asset p))).2 in
  Position.set_closed closePrice (Trading.tick_pnl p closePrice) ts p.

(** What a scan without storage faults makes of a row. *)
Definition scan_row (ts : Z) (prices : gmap string num) (p : Position.t)
  : Position.t :=
  if Position.is_open p && hit prices p then settled ts prices p else p.

End DbInv.

(** ** The client: what the page computes from the feed *)

Module Client.
Import Market.

(** [const pnl] of a row of the open positions table, where
    [prices[pos.asset] || pos.entry_price] stands in for the current
    price. This is the number the row computes: the cell prints
    [pnl.toFixed(2)], its rounding to two decimals, which is not
    modelled. *)
Definition row_pnl (prices : gmap string num) (p : Position.t) : num :=
  let currentPrice :=
    to_number (or_else (get prices (Position.asset p))
                       (Num (Position.entry_price p))) in
  if String.eqb (Position.type p) "BUY" then
    mul (sub currentPrice (Position.entry_price p)) (Position.size p)
  else
    mul (sub (Position.entry_price p) currentPrice) (Position.size p).

(** The cell of the row is green when [pnl >= 0] and red otherwise. *)
Definition row_green (prices : gmap string num) (p : Position.t) : bool :=
  ge (row_pnl prices p) (Fin 0).

(** The object [handleClosePosition] hands to [JSON.stringify] for the
    body of its request to /api/positions/close. A finite number reaches
    the server as it is; JSON has no notation for an infinity. *)
Record CloseReq : Type := mkCloseReq {
  position_id : Z;
  close_price : num
}.

(** [!token]: no stored token, or an empty one. *)
Definition no_token (token : option string) : bool :=
  match token with
  | Some (String _ _) => false
  | _ => true
  end.

(** [handleClosePosition]: [None] when it returns without a request. *)
Definition handleClosePosition (token : option string)
    (positions : list Position.t) (prices : gmap string num) (id : Z)
  : option CloseReq :=
  if no_token token then None
  else
    match find (λ p, Position.id p =? id) positions with
    | None => None
    | Some position =>
        let currentPrice := get prices (Position.asset position) in
        if negb (is_number currentPrice) || isNaN (to_number currentPrice)
        then None
        else Some {| position_id := id;
                     close_price := to_number currentPrice |}
    end.






End Client.

(** ** Further concrete inputs *)

Module MoreExamples.
Import Market.

(** The tick one minute after [Examples.env0]. *)
Definition env1 : Env :=
  {| random := λ _, 0.25%Q; dateNow := λ _, 1700000090500 |}.

(** Start-up state, but with a GOLD price that has grown past the
    largest finite number. *)
Definition st_inf : State :=
  {| prices := <["GOLD"%string := PInf]> initial_prices;
     candleData := initial_candleData |}.




End MoreExamples.

(** * Properties *)

(** Closes a decidable goal about concrete data by evaluation. *)
Ltac by_evaluation := apply (bool_decide_unpack _); vm_compute; reflexivity.

(** ** JavaScript comparisons *)

Section JsFacts.

Lemma le_Fin x y : le (Fin x) (Fin y) = true ↔ (x <= y)%Q.
Proof. simpl. apply Qle_bool_iff. Qed.

Lemma le_refl_Fin x : le (Fin x) (Fin x) = true.
Proof. apply le_Fin. apply Qle_refl. Qed.

Lemma max_Fin x y : ∃ z, max (Fin x) (Fin y) = Fin z ∧ (x <= z)%Q ∧ (y <= z)%Q.
Proof.
  simpl. destruct (Qle_bool x y) eqn:E.
  - exists y. apply Qle_bool_iff in E. repeat split; [done | apply Qle_refl].
  - exists x. repeat split; [apply Qle_refl |].
    destruct (Qlt_le_dec x y) as [Hlt | Hle]; [| done].
    apply Qlt_le_weak, Qle_bool_iff in Hlt. congruence.
Qed.

Lemma min_Fin x y : ∃ z, min (Fin x) (Fin y) = Fin z ∧ (z <= x)%Q ∧ (z <= y)%Q.
Proof.
  simpl. destruct (Qle_bool x y) eqn:E.
  - exists x. apply Qle_bool_iff in E. repeat split; [apply Qle_refl | done].
  - exists y. repeat split; [| apply Qle_refl].
    destruct (Qlt_le_dec x y) as [Hlt | Hle]; [| done].
    apply Qlt_le_weak, Qle_bool_iff in Hlt. congruence.
Qed.

Lemma le_not_NaN a b : le a b = true → isNaN a = false ∧ isNaN b = false.
Proof. by destruct a, b. Qed.

Lemma le_refl a : isNaN a = false → le a a = true.
Proof. destruct a; try done. intros _. apply le_refl_Fin. Qed.

Lemma le_trans a b c : le a b = true → le b c = true → le a c = true.
Proof.
  destruct a as [|x| |], b as [|y| |], c as [|z| |]; simpl; try done.
  rewrite !Qle_bool_iff. apply Qle_trans.
Qed.

Lemma le_max_l a b :
  isNaN a = false → isNaN b = false → le a (max a b) = true.
Proof.
  destruct a as [|x| |], b as [|y| |]; simpl; try done; intros _ _.
  - destruct (max_Fin x y) as (z & E & H & _). simpl in E. rewrite E.
    by apply le_Fin.
  - apply le_refl_Fin.
Qed.

Lemma le_max_r a b :
  isNaN a = false → isNaN b = false → le b (max a b) = true.
Proof.
  destruct a as [|x| |], b as [|y| |]; simpl; try done; intros _ _.
  - destruct (max_Fin x y) as (z & E & _ & H). simpl in E. rewrite E.
    by apply le_Fin.
  - apply le_refl_Fin.
Qed.

Lemma le_min_l a b :
  isNaN a = false → isNaN b = false → le (min a b) a = true.
Proof.
  destruct a as [|x| |], b as [|y| |]; simpl; try done; intros _ _.
  - destruct (min_Fin x y) as (z & E & H & _). simpl in E. rewrite E.
    by apply le_Fin.
  - apply le_refl_Fin.
Qed.

Lemma le_min_r a b :
  isNaN a = false → isNaN b = false → le (min a b) b = true.
Proof.
  destruct a as [|x| |], b as [|y| |]; simpl; try done; intros _ _.
  - destruct (min_Fin x y) as (z & E & _ & H). simpl in E. rewrite E.
    by apply le_Fin.
  - apply le_refl_Fin.
Qed.

(** [a >= b] and [a < b] exclude one another. *)
Lemma ge_not_lt a b : ge a b = true → lt a b = false.
Proof.
  unfold ge. destruct a as [|x| |], b as [|y| |]; simpl; try done.
  by intros ->.
Qed.

Lemma truthy_zero q : (q == 0)%Q → truthy (Num (Fin q)) = false.
Proof. intros H. simpl. apply Qeq_bool_iff in H. by rewrite H. Qed.

End JsFacts.

(** ** The candle aggregator on one series *)

Section Aggregator.
Import Market Inv.

Lemma periodStart_floor (d now : Z) :
  0 < d → now / d * d ≤ now < now / d * d + d.
Proof.
  intros Hd. pose proof (Z.mul_div_le now d Hd).
  pose proof (Z.mul_succ_div_gt now d Hd). lia.
Qed.

Lemma periodStart_aligned (d now : Z) : (d | now / d * d).
Proof. by exists (now / d). Qed.

Lemma evict_short (l : list Candle) :
  (length l ≤ 200)%nat → evict l = l.
Proof.
  intros H. unfold evict.
  destruct (Z.ltb_spec 200 (Z.of_nat (length l))); [lia | done].
Qed.


Lemma evict_length (l : list Candle) :
  (length l ≤ 201)%nat → (length (evict l) ≤ 200)%nat.
Proof.
  intros H. unfold evict.
  destruct (Z.ltb_spec 200 (Z.of_nat (length l))); [| lia].
  destruct l; simpl in *; lia.
Qed.

Lemma evict_last (l : list Candle) (c : Candle) :
  last (evict (l ++ [c])) = Some c.
Proof.
  destruct l as [|c0 l]; [done |].
  unfold evict. destruct (_ <? _); apply last_snoc.
Qed.

Lemma evict_sublist (l : list Candle) : evict l ⊆ l.
Proof.
  unfold evict. destruct (_ <? _); [| done].
  destruct l; [done |]. simpl. set_solver.
Qed.

Lemma tail_sorted (l : list Z) :
  StronglySorted Z.lt l → StronglySorted Z.lt (tail l).
Proof. destruct 1; [constructor | done]. Qed.

Lemma evict_sorted (l : list Candle) :
  StronglySorted Z.lt (time <$> l) → StronglySorted Z.lt (time <$> evict l).
Proof.
  unfold evict. destruct (_ <? _); [| done].
  intros H. destruct l; [done |]. by inversion H.
Qed.

Lemma evict_Forall (P : Candle → Prop) (l : list Candle) :
  Forall P l → Forall P (evict l).
Proof.
  intros H. apply Forall_forall. intros c Hc.
  rewrite Forall_forall in H. apply H. by apply evict_sublist.
Qed.

(** Pushing a fresh candle keeps a series well formed. *)
Lemma push_ok (d t : Z) (p : num) (l : list Candle) :
  isNaN p = false →
  (d | t) →
  (∀ c, last l = Some c → time c < t) →
  series_ok d l →
  series_ok d (evict (l ++ [mkCandle t p p p p])).
Proof.
  intros Hp Hdiv Hlast [Hc Hs Ha Hb]. split.
  - apply evict_Forall, Forall_app. split; [done |].
    constructor; [| constructor].
    unfold candle_okb. simpl. by rewrite !(le_refl p Hp).
  - apply evict_sorted. rewrite fmap_app. apply StronglySorted_app_2.
    + intros x1 x2 Hx1 Hx2. apply list_elem_of_singleton in Hx2. subst x2.
      simpl. destruct (last l) as [c|] eqn:El.
      * specialize (Hlast c eq_refl).
        apply last_Some in El as [l' ->].
        rewrite fmap_app in Hx1, Hs. apply elem_of_app in Hx1 as [Hx1 | Hx1].
        -- assert (x1 < time c); [| lia].
           eapply StronglySorted_app_1_elem_of; [exact Hs | done |].
           simpl. constructor.
        -- apply list_elem_of_singleton in Hx1. simpl in Hx1. lia.
      * apply last_None in El. subst l. by apply elem_of_nil in Hx1.
    + done.
    + repeat constructor.
  - apply evict_Forall, Forall_app. split; [done |]. by repeat constructor.
  - apply evict_length. rewrite length_app. simpl. lia.
Qed.

(** Folding a price into the last candle keeps a series well formed. *)
Lemma fold_ok (d : Z) (p : num) (init : list Candle) (lc : Candle) :
  isNaN p = false →
  series_ok d (init ++ [lc]) →
  series_ok d (init ++ [mkCandle (time lc) (open lc) (max (high lc) p)
                                 (min (low lc) p) p]).
Proof.
  intros Hp [Hc Hs Ha Hb].
  apply Forall_app in Hc as [Hc1 Hc2]. apply Forall_app in Ha as [Ha1 Ha2].
  inversion_clear Hc2 as [|? ? Hlc _]. inversion_clear Ha2 as [|? ? Hal _].
  split.
  - apply Forall_app. split; [done |]. constructor; [| constructor].
    unfold candle_okb in *. simpl.
    apply andb_prop in Hlc as [Hlc H4]. apply andb_prop in Hlc as [Hlc H3].
    apply andb_prop in Hlc as [H1 H2].
    destruct (le_not_NaN _ _ H1) as [Hlo _].
    destruct (le_not_NaN _ _ H2) as [_ Hhi].
    rewrite !andb_true_iff. repeat split.
    + eapply le_trans; [by apply le_min_l | done].
    + eapply le_trans; [done | by apply le_max_l].
    + by apply le_min_r.
    + by apply le_max_r.
  - by rewrite fmap_app in *.
  - apply Forall_app. split; [done |]. by repeat constructor.
  - by rewrite length_app in *.
Qed.

(** Crossing a period boundary pushes a fresh candle. *)
Lemma updateSeries_push (d now : Z) (price : num) (candles : list Candle) :
  (∀ lc, last candles = Some lc → time lc < now / d * d) →
  updateSeries d now price candles =
    evict (candles ++ [mkCandle (now / d * d) price price price price]).
Proof.
  intros Hcross. unfold updateSeries.
  destruct (last candles) as [lc|]; [| done].
  specialize (Hcross lc eq_refl).
  by destruct (Z.ltb_spec (time lc) (now / d * d)); [| lia].
Qed.

(** One aggregation step keeps a series well formed, whatever number
    other than [NaN] the price is. *)
Lemma updateSeries_ok (d now : Z) (p : num) (l : list Candle) :
  isNaN p = false →
  series_ok d l → series_ok d (updateSeries d now p l).
Proof.
  intros Hp Hok. unfold updateSeries.
  destruct (last l) as [lc|] eqn:El.
  - destruct (Z.ltb_spec (time lc) (now / d * d)).
    + apply push_ok; [done | apply periodStart_aligned | | done].
      intros c Hc. congruence.
    + apply last_Some in El as [init ->]. rewrite removelast_last.
      by apply fold_ok.
  - apply push_ok; [done | apply periodStart_aligned | | done].
    intros c Hc. congruence.
Qed.

End Aggregator.

(** ** The market half of the tick *)

Section MarketTick.
Import Market Inv.

Implicit Types cd : gmap string (gmap string (list Candle)).

Lemma volatility_Fin asset : volatility asset = Fin (volatilityQ asset).
Proof. unfold volatility, volatilityQ. by destruct (includes _ _). Qed.

Lemma stepped_Fin env asset p :
  stepped env asset (Fin p) = Fin (advanced env asset p).
Proof. unfold stepped. by rewrite volatility_Fin. Qed.

(** The guard lets through exactly the stored numbers other than [NaN],
    the infinities among them. *)
Lemma corrupt_false st asset :
  corrupt st asset = false ↔
  ∃ n, prices st !! asset = Some n ∧ isNaN n = false.
Proof.
  unfold corrupt, get. destruct (prices st !! asset) as [n|]; simpl.
  - split; [by exists n | by intros (? & [= <-] & ?)].
  - split; [done | by intros (? & ? & ?)].
Qed.

Lemma corrupt_false_Fin st asset p :
  prices st !! asset = Some (Fin p) → corrupt st asset = false.
Proof. intros H. apply corrupt_false. by exists (Fin p). Qed.

Lemma updateTimeframe_Some asset now price cd tf cd' :
  updateTimeframe asset now price cd tf = Some cd' →
  ∃ candles, series cd asset tf.1 = Some candles ∧
    ∀ a k, series cd' a k =
           if decide (a = asset ∧ k = tf.1)
           then Some (updateSeries tf.2 now price candles)
           else series cd a k.
Proof.
  unfold updateTimeframe, series. intros H.
  destruct (cd !! asset) as [m|] eqn:Em; [| done]. simpl in H.
  destruct (m !! tf.1) as [candles|] eqn:Ec; [| done]. simpl in H.
  injection H as <-. exists candles. split; [done |].
  intros a k. destruct (decide (a = asset)) as [-> | Hne].
  - rewrite lookup_insert_eq. simpl.
    destruct (decide (k = tf.1)) as [-> | Hk].
    + rewrite lookup_insert_eq. by rewrite decide_True.
    + rewrite lookup_insert_ne by done.
      rewrite decide_False by (by intros [_ ?]). by rewrite Em.
  - rewrite lookup_insert_ne by done.
    by rewrite decide_False by (by intros [? _]).
Qed.

Lemma updateTimeframe_total asset now price cd tf :
  is_Some (series cd asset tf.1) →
  is_Some (updateTimeframe asset now price cd tf).
Proof.
  unfold updateTimeframe, series. intros [l H].
  destruct (cd !! asset) as [m|]; [| done]. simpl in *. rewrite H. by eexists.
Qed.

(** The loop over the timeframes updates each listed series once and
    leaves every other series alone. *)
Lemma forEach_timeframes asset now price tfs cd cd' :
  NoDup tfs.*1 →
  forEachM (updateTimeframe asset now price) tfs cd = Some cd' →
  (∀ a k, a ≠ asset ∨ k ∉ tfs.*1 → series cd' a k = series cd a k) ∧
  (∀ k d, (k, d) ∈ tfs →
     ∃ candles, series cd asset k = Some candles ∧
       series cd' asset k = Some (updateSeries d now price candles)).
Proof.
  revert cd. induction tfs as [|tf tfs IH]; intros cd Hnd H; simpl in *.
  - injection H as <-. split; [done |]. intros k d Hin. by apply elem_of_nil in Hin.
  - destruct (updateTimeframe asset now price cd tf) as [cd1|] eqn:E1; [| done].
    apply NoDup_cons in Hnd as [Hnotin Hnd].
    destruct (IH cd1 Hnd H) as [IHframe IHupd].
    apply updateTimeframe_Some in E1 as (candles & Ec & E1).
    split.
    + intros a k Hak. rewrite IHframe.
      * rewrite E1. rewrite decide_False; [done |].
        intros [-> ->]. destruct Hak as [? | Hk]; [done |].
        apply Hk. constructor.
      * destruct Hak as [? | Hk]; [by left | right].
        intros ?. apply Hk. by constructor.
    + intros k d Hin. apply elem_of_cons in Hin as [Heq | Hin].
      * subst tf. simpl in *. exists candles. split; [done |].
        rewrite IHframe by (by right). rewrite E1. by rewrite decide_True.
      * destruct (IHupd k d Hin) as (c1 & Hc1 & Hc1').
        assert (k ≠ tf.1) as Hk.
        { intros ->. apply Hnotin. apply list_elem_of_fmap. by exists (tf.1, d). }
        rewrite E1 in Hc1. rewrite decide_False in Hc1 by (by intros [_ ?]).
        by exists c1.
Qed.

Lemma forEach_timeframes_total asset now price tfs cd :
  (∀ tf, tf ∈ tfs → is_Some (series cd asset tf.1)) →
  is_Some (forEachM (updateTimeframe asset now price) tfs cd).
Proof.
  revert cd. induction tfs as [|tf tfs IH]; intros cd H; simpl.
  - by eexists.
  - destruct (updateTimeframe_total asset now price cd tf) as [cd1 E1].
    { apply H. constructor. }
    rewrite E1. apply IH. intros tf' Hin.
    apply updateTimeframe_Some in E1 as (candles & Ec & E1).
    rewrite E1. case_decide; [by eexists |]. apply H. by constructor.
Qed.

Lemma timeframes_NoDup : NoDup timeframes.*1.
Proof. by_evaluation. Qed.

Lemma assets_NoDup : NoDup assets.
Proof. by_evaluation. Qed.


Lemma stepAsset_corrupt env st a :
  corrupt st a = true →
  stepAsset env st a =
    Some {| prices := <[a := default_price a]> (prices st);
            candleData := candleData st |}.
Proof. unfold corrupt, stepAsset. by intros ->. Qed.

Lemma stepAsset_passes env st a n st' :
  prices st !! a = Some n → isNaN n = false →
  stepAsset env st a = Some st' →
  prices st' = <[a := stepped env a n]> (prices st) ∧
  forEachM (updateTimeframe a (dateNow env a / 1000) (stepped env a n))
           timeframes (candleData st) = Some (candleData st').
Proof.
  intros Hp Hn. unfold stepAsset, get. rewrite Hp, lookup_insert_eq.
  cbn [negb is_number to_number orb]. rewrite Hn.
  fold (stepped env a n).
  match goal with
  | |- context [forEachM ?f ?l ?s] => destruct (forEachM f l s) as [cd|]
  end; [| done].
  simpl. by intros [= <-].
Qed.


Lemma stepAsset_total env st a :
  (∀ tf, tf ∈ timeframes → is_Some (series (candleData st) a tf.1)) →
  is_Some (stepAsset env st a).
Proof.
  intros H. unfold stepAsset. destruct (_ || _); [by eexists |].
  match goal with
  | |- context [forEachM (updateTimeframe a ?now ?price) _ _] =>
      destruct (forEach_timeframes_total a now price timeframes
                  (candleData st) H) as [cd E]
  end.
  rewrite E. by eexists.
Qed.

(** One asset step acts on that asset as [tick_effect] says and on no
    other asset. *)
Lemma stepAsset_effect env st a st' :
  stepAsset env st a = Some st' →
  tick_effect env st st' a ∧ ∀ b, b ≠ a → same_at b st st'.
Proof.
  intros H. destruct (corrupt st a) eqn:Ec.
  - rewrite stepAsset_corrupt in H by done. injection H as <-.
    split.
    + unfold tick_effect. simpl. rewrite lookup_insert_eq.
      destruct (prices st !! a) as [n|] eqn:Ep; [| done].
      destruct n; try done;
        (assert (corrupt st a = false) as Hc
           by (apply corrupt_false; by eexists); congruence).
    + intros b Hb. split; [| done]. simpl. by rewrite lookup_insert_ne.
  - apply corrupt_false in Ec as (n & Hp & Hn).
    destruct (stepAsset_passes env st a n st' Hp Hn H) as [Hpr Hcd].
    apply forEach_timeframes in Hcd as [Hframe Hupd];
      [| apply timeframes_NoDup].
    split.
    + unfold tick_effect. rewrite Hp.
      destruct n; try done; simpl; (split; [| done]);
        rewrite Hpr; apply lookup_insert_eq.
    + intros b Hb. split.
      * rewrite Hpr. by rewrite lookup_insert_ne.
      * intros k. symmetry. apply Hframe. by left.
Qed.

(** What [tick_effect] says of a price that passes the guard. *)
Lemma tick_effect_passes env st st' a n :
  tick_effect env st st' a →
  prices st !! a = Some n → isNaN n = false →
  prices st' !! a = Some (stepped env a n) ∧
  ∀ k d, (k, d) ∈ timeframes →
    ∃ candles,
      series (candleData st) a k = Some candles ∧
      series (candleData st') a k =
        Some (updateSeries d (dateNow env a / 1000) (stepped env a n)
                           candles).
Proof.
  unfold tick_effect. intros Heff Hp Hn. rewrite Hp in Heff.
  by destruct n.
Qed.

Lemma tick_effect_same env st1 st2 st1' st2' a :
  same_at a st1 st2 → same_at a st1' st2' →
  tick_effect env st1 st1' a → tick_effect env st2 st2' a.
Proof.
  intros [Hp Hs] [Hp' Hs']. unfold tick_effect.
  rewrite <- Hp, <- Hp'.
  destruct (prices st1 !! a) as [[|p| |]|]; simpl;
    intros [? H]; (split; [done |]);
    try (intros k; by rewrite <- Hs, <- Hs');
    intros k d Hin; rewrite <- Hs, <- Hs'; by apply H.
Qed.

Lemma same_at_refl a st : same_at a st st.
Proof. by split. Qed.

Lemma same_at_trans a st1 st2 st3 :
  same_at a st1 st2 → same_at a st2 st3 → same_at a st1 st3.
Proof.
  intros [H1 H2] [H3 H4]. split; [congruence |].
  intros k. by rewrite H2.
Qed.

Lemma same_at_sym a st1 st2 : same_at a st1 st2 → same_at a st2 st1.
Proof. intros [H1 H2]. by split. Qed.

(** The loop over a duplicate-free list of assets: each listed asset
    undergoes its [tick_effect], every other asset is left alone. *)
Lemma forEach_assets env l st st' :
  NoDup l →
  forEachM (stepAsset env) l st = Some st' →
  (∀ a, a ∈ l → tick_effect env st st' a) ∧
  (∀ b, b ∉ l → same_at b st st').
Proof.
  revert st. induction l as [|a l IH]; intros st Hnd H; simpl in H.
  - injection H as <-. split; [intros a Ha; by apply elem_of_nil in Ha |].
    intros b _. apply same_at_refl.
  - destruct (stepAsset env st a) as [st1|] eqn:E1; [| done].
    apply NoDup_cons in Hnd as [Hnotin Hnd].
    destruct (IH st1 Hnd H) as [IHeff IHframe].
    destruct (stepAsset_effect env st a st1 E1) as [Heff Hframe].
    split.
    + intros a' Ha'. apply elem_of_cons in Ha' as [-> | Ha'].
      * eapply tick_effect_same; [apply same_at_refl | | exact Heff].
        by apply IHframe.
      * assert (a' ≠ a) as Hne by (intros ->; done).
        eapply tick_effect_same; [| apply same_at_refl | by apply IHeff].
        apply same_at_sym. by apply Hframe.
    + intros b Hb. apply not_elem_of_cons in Hb as [Hne Hb].
      eapply same_at_trans; [by apply Hframe | by apply IHframe].
Qed.

Lemma tickMarket_effect env st st' :
  tickMarket env st = Some st' →
  (∀ a, a ∈ assets → tick_effect env st st' a) ∧
  (∀ b, b ∉ assets → same_at b st st').
Proof.
  unfold tickMarket. intros H.
  exact (forEach_assets env assets st st' assets_NoDup H).
Qed.

End MarketTick.

(** ** Invariants of the reachable states *)

Section Reachable.
Import Market Inv.

Lemma foldl_insert_lookup {A V : Type} (f : A → string) (v : V)
    (l : list A) (m0 : gmap string V) (k : string) (y : V) :
  foldl (λ m x, <[f x := v]> m) m0 l !! k = Some y →
  y = v ∨ m0 !! k = Some y.
Proof.
  revert m0. induction l as [|x l IH]; intros m0 H; simpl in H; [by right |].
  apply IH in H as [-> | H]; [by left |].
  apply lookup_insert_Some in H as [[_ <-] | [_ H]]; [by left | by right].
Qed.

Lemma foldl_insert_keeps {A V : Type} (f : A → string) (v : V)
    (l : list A) (m0 : gmap string V) (k : string) :
  k ∈ f <$> l ∨ m0 !! k = Some v →
  foldl (λ m x, <[f x := v]> m) m0 l !! k = Some v.
Proof.
  revert m0. induction l as [|x l IH]; intros m0 H; simpl.
  - destruct H as [H | H]; [by apply elem_of_nil in H | done].
  - apply IH. destruct (decide (k = f x)) as [-> | Hne].
    + right. apply lookup_insert_eq.
    + rewrite lookup_insert_ne by done.
      destruct H as [H | H]; [left | by right].
      rewrite fmap_cons in H. by apply elem_of_cons in H as [? | ?].
Qed.

Lemma foldl_insert_elem {A V : Type} (f : A → string) (v : V)
    (l : list A) (m0 : gmap string V) (x : A) :
  x ∈ l → foldl (λ m x, <[f x := v]> m) m0 l !! f x = Some v.
Proof.
  intros H. apply foldl_insert_keeps. left. by apply list_elem_of_fmap_2.
Qed.

Lemma initial_series a k l :
  series initial_candleData a k = Some l → l = [].
Proof.
  unfold series, initial_candleData. intros H.
  destruct (foldl _ _ assets !! a) as [m|] eqn:Em; [| done]. simpl in H.
  apply (foldl_insert_lookup (λ a, a)) in Em as [-> | Em]; [| done].
  by apply (foldl_insert_lookup fst) in H as [-> | H].
Qed.

Lemma initial_wf : wf initial_candleData.
Proof.
  intros a tf Ha Htf. unfold series, initial_candleData.
  rewrite (foldl_insert_elem (λ a, a) _ assets ∅ a Ha).
  cbn [mbind option_bind].
  rewrite (foldl_insert_elem fst [] timeframes ∅ tf Htf). by eexists.
Qed.

Lemma initial_ok : state_ok initial.
Proof.
  intros a k d l _ H. apply initial_series in H as ->.
  split; [constructor | constructor | constructor | simpl; lia].
Qed.

Lemma initial_healthy a : a ∈ assets → corrupt initial a = false.
Proof.
  intros Ha. unfold assets in Ha.
  repeat (apply elem_of_cons in Ha as [-> | Ha]; [by vm_compute |]).
  by apply elem_of_nil in Ha.
Qed.

Lemma stepAsset_wf env st a st' :
  stepAsset env st a = Some st' →
  wf (candleData st) → wf (candleData st').
Proof.
  intros H Hwf b tf Hb Htf.
  destruct (stepAsset_effect env st a st' H) as [Heff Hframe].
  destruct (decide (b = a)) as [-> | Hne].
  - unfold tick_effect in Heff.
    destruct (prices st !! a) as [[|p| |]|]; destruct Heff as [_ Hs];
      try (rewrite Hs; by apply Hwf);
      destruct tf as [k d]; destruct (Hs k d Htf) as (c & _ & Hc);
      cbn [fst]; rewrite Hc; by eexists.
  - destruct (Hframe b Hne) as [_ Hs]. rewrite <- Hs. by apply Hwf.
Qed.

Lemma forEach_assets_total env l st :
  (∀ a, a ∈ l → a ∈ assets) → wf (candleData st) →
  ∃ st', forEachM (stepAsset env) l st = Some st' ∧ wf (candleData st').
Proof.
  revert st. induction l as [|a l IH]; intros st Hl Hwf; simpl.
  - by exists st.
  - destruct (stepAsset_total env st a) as [st1 E1].
    { intros tf Htf. apply Hwf; [| done]. apply Hl. constructor. }
    rewrite E1. apply IH.
    + intros b Hb. apply Hl. by constructor.
    + by eapply stepAsset_wf.
Qed.

(** On a well-formed state the market half of the tick does not throw. *)
Lemma tickMarket_total env st :
  wf (candleData st) →
  ∃ st', tickMarket env st = Some st' ∧ wf (candleData st').
Proof.
  unfold tickMarket. intros H.
  exact (forEach_assets_total env assets st (λ a Ha, Ha) H).
Qed.

(** A tick keeps every series well formed, provided no instrument
    holds an infinite stored price when it starts. *)
Lemma tickMarket_ok env st st' :
  tickMarket env st = Some st' → finite_prices st →
  state_ok st → state_ok st'.
Proof.
  intros H Hfin Hok a k d l Hkd Hl.
  destruct (tickMarket_effect env st st' H) as [Heff Hframe].
  destruct (decide (a ∈ assets)) as [Ha | Ha].
  - specialize (Heff a Ha). unfold tick_effect in Heff.
    destruct (Hfin a Ha) as [Hp Hn].
    destruct (prices st !! a) as [[|p| |]|]; try done.
    + destruct Heff as [_ Hs]. rewrite Hs in Hl. by eapply Hok.
    + cbv zeta in Heff. rewrite stepped_Fin in Heff.
      destruct Heff as [_ Hs]. destruct (Hs k d Hkd) as (c & Hc & Hc').
      rewrite Hc' in Hl. injection Hl as <-.
      apply updateSeries_ok; [done | by eapply Hok].
    + destruct Heff as [_ Hs]. rewrite Hs in Hl. by eapply Hok.
  - destruct (Hframe a Ha) as [_ Hs]. rewrite <- Hs in Hl. by eapply Hok.
Qed.

Lemma defaults_Fin :
  map_Forall (λ _ n, match n with Fin _ => True | _ => False end) defaults.
Proof.
  apply map_Forall_to_list. unfold defaults.
  rewrite map_to_list_to_map by by_evaluation.
  repeat (apply Forall_cons; split; [done |]). constructor.
Qed.

Lemma default_price_Fin a : ∃ q, default_price a = Fin q.
Proof.
  unfold default_price, or_else, get.
  destruct (defaults !! a) as [n|] eqn:E; simpl; [| by eexists].
  apply defaults_Fin in E. destruct n as [|q| |]; try done. simpl.
  destruct (Qeq_bool q 0); simpl; by eexists.
Qed.

(** After a tick an instrument whose stored price was not infinite
    holds a finite price. *)
Lemma tickMarket_finite env st st' a :
  tickMarket env st = Some st' → a ∈ assets →
  prices st !! a ≠ Some PInf → prices st !! a ≠ Some NInf →
  ∃ q, prices st' !! a = Some (Fin q).
Proof.
  intros H Ha Hp Hn.
  destruct (tickMarket_effect env st st' H) as [Heff _].
  specialize (Heff a Ha). unfold tick_effect in Heff.
  destruct (default_price_Fin a) as [q Hq].
  destruct (prices st !! a) as [[|p| |]|]; try done;
    destruct Heff as [-> _]; rewrite ?Hq, ?stepped_Fin; by eexists.
Qed.

Lemma initial_finite a : a ∈ assets → ∃ q, prices initial !! a = Some (Fin q).
Proof.
  intros Ha. unfold assets in Ha.
  repeat (apply elem_of_cons in Ha as [-> | Ha]; [by eexists |]).
  by apply elem_of_nil in Ha.
Qed.

(** From start-up every instrument holds a finite price at every tick:
    finite arithmetic is exact here and cannot leave the rationals. *)
Lemma reachable_finite st a :
  reachable st → a ∈ assets → ∃ q, prices st !! a = Some (Fin q).
Proof.
  induction 1 as [|env st st' _ IH H]; intros Ha; [by apply initial_finite |].
  destruct (IH Ha) as [q Hq].
  eapply tickMarket_finite; [done | done | |]; by rewrite Hq.
Qed.

Lemma reachable_finite_prices st : reachable st → finite_prices st.
Proof.
  intros H a Ha. destruct (reachable_finite st a H Ha) as [q ->]. done.
Qed.


Lemma reachable_wf st : reachable st → wf (candleData st).
Proof.
  induction 1 as [|env st st' _ IH H]; [apply initial_wf |].
  destruct (tickMarket_total env st IH) as (st1 & E & Hwf).
  rewrite H in E. by injection E as <-.
Qed.

Lemma reachable_ok st : reachable st → state_ok st.
Proof.
  induction 1 as [|env st st' Hr IH H]; [apply initial_ok |].
  eapply tickMarket_ok; [done | by apply reachable_finite_prices | done].
Qed.

Lemma reachable_healthy st a :
  reachable st → a ∈ assets → corrupt st a = false.
Proof.
  intros H Ha. destruct (reachable_finite st a H Ha) as [q Hq].
  by eapply corrupt_false_Fin.
Qed.

End Reachable.

(** ** The aggregator and the price generator: the claims *)

Section MarketClaims.
Import Market Inv Examples MoreExamples.

(** C3: an aggregation step computes [periodStart] as
    [floor(now / tf) * tf]; on an empty series, or when the last candle is
    older than [periodStart], it appends a candle whose open, high, low
    and close are the price (and drops the head once the length passes
    200); otherwise it rewrites the last candle with
    [high = max(high, price)], [low = min(low, price)], [close = price]
    and keeps its open and its time, and no other candle changes. *)
Theorem aggregation_step (d now : Z) (price : num) (candles : list Candle) :
  let periodStart := now / d * d in
  let fresh := mkCandle periodStart price price price price in
  (0 < d → periodStart ≤ now < periodStart + d ∧ (d | periodStart)) ∧
  (candles = [] ∨ (∃ lc, last candles = Some lc ∧ time lc < periodStart) →
     updateSeries d now price candles = evict (candles ++ [fresh]) ∧
     last (updateSeries d now price candles) = Some fresh ∧
     ((length candles < 200)%nat →
        updateSeries d now price candles = candles ++ [fresh])) ∧
  (∀ init lc, candles = init ++ [lc] → periodStart ≤ time lc →
     updateSeries d now price candles =
       init ++ [mkCandle (time lc) (open lc) (max (high lc) price)
                         (min (low lc) price) price]).
Proof.
  intros periodStart fresh. split; [| split].
  - intros Hd. split; [by apply periodStart_floor | apply periodStart_aligned].
  - intros Hcross.
    assert (updateSeries d now price candles = evict (candles ++ [fresh]))
      as Heq.
    { apply updateSeries_push. intros lc Hlc.
      destruct Hcross as [-> | (lc' & Hl & Hlt)]; [done |].
      rewrite Hl in Hlc. injection Hlc as <-. exact Hlt. }
    rewrite Heq. split; [done |]. split; [apply evict_last |].
    intros Hlen. apply evict_short. rewrite length_app. simpl. lia.
  - intros init lc -> Hge. unfold updateSeries. fold periodStart.
    rewrite last_snoc, removelast_last.
    by destruct (Z.ltb_spec (time lc) periodStart); [lia |].
Qed.

Lemma aggregation_step_witness :
  updateSeries 60 125 (Fin 5) [c60] =
    [c60; mkCandle 120 (Fin 5) (Fin 5) (Fin 5) (Fin 5)] ∧
  updateSeries 60 119 (Fin 5) [c60] =
    [mkCandle 60 (Fin 1) (Fin 5) (Fin 1) (Fin 5)].
Proof.
  destruct (aggregation_step 60 125 (Fin 5) [c60]) as (_ & Hpush & _).
  destruct (aggregation_step 60 119 (Fin 5) [c60]) as (_ & _ & Hfold).
  split.
  - apply Hpush; [| simpl; lia].
    right. exists c60. split; [reflexivity | vm_compute; reflexivity].
  - apply (Hfold [] c60); [reflexivity | vm_compute; discriminate].
Defined.












Lemma defaults_defined a : a ∈ assets → defaults !! a = Some (default_price a).
Proof.
  intros Ha. unfold assets in Ha.
  repeat (apply elem_of_cons in Ha as [-> | Ha]; [by vm_compute |]).
  by apply elem_of_nil in Ha.
Qed.

Lemma corrupt_true st a :
  corrupt st a = true ↔ prices st !! a = None ∨ prices st !! a = Some NaN.
Proof.
  unfold corrupt, get. destruct (prices st !! a) as [[|p| |]|]; simpl;
    try (split; [done | by intros [? | ?]]).
  - split; [by right | done].
  - split; [by left | done].
Qed.









End MarketClaims.

(** ** The position evaluator *)

Section Evaluator.
Import Examples.

Lemma checkTpSl_falsy (pos : Position.t) (currentPrice : jsval) :
  truthy (Position.take_profit pos) = false →
  truthy (Position.stop_loss pos) = false →
  (Trading.checkTpSl pos currentPrice).1 = false.
Proof.
  intros Htp Hsl. unfold Trading.checkTpSl.
  rewrite Htp, Hsl. simpl. by destruct (String.eqb _ _).
Qed.

(** C1: the threshold check of the tick. A threshold is "set" when it is
    truthy (neither [null] nor zero). For a long position the take-profit
    fires on [current >= takeProfit] and, failing that, the stop-loss on
    [current <= stopLoss]; for a short position both comparisons are
    inverted; the take-profit is always tested first. The close price is
    the threshold itself, and it is the threshold that the settlement
    writes to the row; with neither threshold set the position is left
    untouched. *)
Theorem threshold_check (pos : Position.t) (currentPrice : jsval) :
  let tp := Position.take_profit pos in
  let sl := Position.stop_loss pos in
  let cur := to_number currentPrice in
  let long := String.eqb (Position.type pos) "BUY" in
  let tp_hit :=
    truthy tp &&
    (if long then ge cur (to_number tp) else le cur (to_number tp)) in
  let sl_hit :=
    truthy sl &&
    (if long then le cur (to_number sl) else ge cur (to_number sl)) in
  (Trading.checkTpSl pos currentPrice =
     if tp_hit then (true, tp)
     else if sl_hit then (true, sl)
     else (false, currentPrice)) ∧
  (truthy tp = false → truthy sl = false →
     (Trading.checkTpSl pos currentPrice).1 = false) ∧
  (∀ faults ts prices db,
     currentPrice = Market.get prices (Position.asset pos) →
     faults (Position.id pos) = no_faults →
     Trading.checkPosition faults ts prices pos db =
       match Trading.checkTpSl pos currentPrice with
       | (true, closePrice) =>
           (credit (Trading.tick_pnl pos closePrice) (Position.user_id pos)
              (update_position
                 (Position.set_closed closePrice
                    (Trading.tick_pnl pos closePrice) ts)
                 (Position.id pos) db),
            Returned tt)
       | (false, _) => (db, Returned tt)
       end).
Proof.
  intros tp sl cur long tp_hit sl_hit. split; [| split].
  - unfold Trading.checkTpSl. fold tp sl cur long.
    subst tp_hit sl_hit. by destruct long.
  - apply checkTpSl_falsy.
  - intros faults ts prices db -> Hf. unfold Trading.checkPosition.
    destruct (Trading.checkTpSl _ _) as [[|] closePrice]; [| done].
    rewrite Hf. reflexivity.
Qed.

Lemma threshold_check_witness :
  Trading.checkTpSl long_pos (Num (Fin 1.1060))
    = (true, Num (Fin 1.1050)) ∧
  (Trading.checkTpSl bare_pos (Num (Fin 0.01))).1 = false ∧
  Position.close_price
    <$> ((positions
            (Trading.checkPosition (λ _, no_faults) 1700000100
               (<["EUR/USD"%string := Fin 1.1060]> Market.initial_prices)
               long_pos db0).1) !! 0%nat)
    = Some (Num (Fin 1.1050)).
Proof.
  destruct (threshold_check long_pos (Num (Fin 1.1060))) as (H1 & _ & H3).
  split; [rewrite H1; vm_compute; reflexivity |].
  split.
  { apply (threshold_check bare_pos (Num (Fin 0.01))); reflexivity. }
  rewrite (H3 (λ _, no_faults) 1700000100
             (<["EUR/USD"%string := Fin 1.1060]> Market.initial_prices) db0);
    [| vm_compute; reflexivity | reflexivity].
  vm_compute. reflexivity.
Defined.

(** The two worked examples of the specification. *)
Example long_take_profit :
  Trading.checkTpSl long_pos (Num (Fin 1.1060))
    = (true, Num (Fin 1.1050)) ∧
  Trading.checkTpSl long_pos (Num (Fin 1.1049)) = (false, Num (Fin 1.1049)) ∧
  match Trading.tick_pnl long_pos (Num (Fin 1.1050)) with
  | Fin q => (q == 0.0050)%Q
  | _ => False
  end.
Proof. repeat split. Qed.

Example short_stop_loss :
  Trading.checkTpSl short_pos (Num (Fin 2015)) = (true, Num (Fin 2010)) ∧
  match Trading.tick_pnl short_pos (Num (Fin 2010)) with
  | Fin q => (q == -5)%Q
  | _ => False
  end.
Proof. repeat split. Qed.

(** C6: the tick and the manual close endpoint compute the same
    profit/loss from the same position and close price, and it is the
    formula of the specification: [(close - entry) * size] for a BUY
    position, [(entry - close) * size] for a SELL position. *)
Theorem pnl_paths_agree (pos : Position.t) (closePrice : num) :
  Trading.tick_pnl pos (Num closePrice) = Trading.close_pnl pos closePrice ∧
  (Position.type pos = "BUY"%string →
     Trading.close_pnl pos closePrice =
       Spec.pnl true (Position.entry_price pos) (Position.size pos)
                closePrice) ∧
  (Position.type pos = "SELL"%string →
     Trading.close_pnl pos closePrice =
       Spec.pnl false (Position.entry_price pos) (Position.size pos)
                closePrice).
Proof.
  split; [reflexivity |].
  unfold Trading.close_pnl. split; intros ->; reflexivity.
Qed.

Lemma pnl_paths_agree_witness :
  Trading.close_pnl long_pos (Fin 1.1050) =
    Spec.pnl true (Fin 1.1000) (Fin 1) (Fin 1.1050) ∧
  Trading.close_pnl short_pos (Fin 2010) =
    Spec.pnl false (Fin 2000) (Fin 0.5) (Fin 2010).
Proof.
  split.
  - apply (pnl_paths_agree long_pos (Fin 1.1050)). reflexivity.
  - apply (pnl_paths_agree short_pos (Fin 2010)). reflexivity.
Defined.

End Evaluator.

(** ** Settlement, margin check and wallet *)

Section Settlement.
Import Examples.

Lemma unset_falsy v : Spec.unset v → truthy v = false.
Proof. intros [-> | (q & -> & Hq)]; [done | by apply truthy_zero]. Qed.

Lemma unset_stored v : Spec.unset v → or_else v Null = Null.
Proof. intros H. unfold or_else. by rewrite (unset_falsy v H). Qed.

(** With one threshold falsy, a closure reported in [H] can only come from
    the other threshold [other]. *)
Ltac closure_from other H :=
  destruct (String.eqb _ _);
  destruct (truthy other); simpl in H;
  try discriminate H;
  match type of H with
  | (if ?c then _ else _) = _ => destruct c
  end; by inversion H.

(** C9: a take-profit or stop-loss of zero counts as not set. The open
    endpoint stores [null] for it, and the tick never closes a position
    on a threshold that is zero or [null]: a closure then comes from the
    other threshold, which is set, and with neither set there is none. *)
Theorem zero_threshold_unset :
  (∀ ts auth req db db' rowid,
     Trading.positions_open ts auth req db = (db', Returned (OpenOk rowid)) →
     ∃ row,
       positions db' = positions db ++ [row] ∧
       Position.id row = rowid ∧
       (Spec.unset (Trading.take_profit req) →
          Position.take_profit row = Null) ∧
       (Spec.unset (Trading.stop_loss req) →
          Position.stop_loss row = Null) ∧
       (Position.take_profit row = Null ∨
        truthy (Position.take_profit row) = true) ∧
       (Position.stop_loss row = Null ∨
        truthy (Position.stop_loss row) = true)) ∧
  (∀ pos currentPrice closePrice,
     Trading.checkTpSl pos currentPrice = (true, closePrice) →
     (Spec.unset (Position.take_profit pos) →
        truthy (Position.stop_loss pos) = true ∧
        closePrice = Position.stop_loss pos) ∧
     (Spec.unset (Position.stop_loss pos) →
        truthy (Position.take_profit pos) = true ∧
        closePrice = Position.take_profit pos)) ∧
  (∀ pos currentPrice,
     Spec.unset (Position.take_profit pos) →
     Spec.unset (Position.stop_loss pos) →
     (Trading.checkTpSl pos currentPrice).1 = false).
Proof.
  split; [| split].
  - intros ts auth req db db' rowid. unfold Trading.positions_open.
    destruct (users db !! auth_id auth) as [user|]; [| done].
    destruct (lt _ _); [done |]. intros [= <- <-].
    eexists. split; [reflexivity |]. split; [reflexivity |].
    split; [intros H; simpl; by apply unset_stored |].
    split; [intros H; simpl; by apply unset_stored |].
    simpl. unfold or_else.
    split; [destruct (truthy (Trading.take_profit req)) eqn:E
           | destruct (truthy (Trading.stop_loss req)) eqn:E];
      by (right + left).
  - intros pos cur cp. unfold Trading.checkTpSl. intros H. split.
    + intros Hu. rewrite (unset_falsy _ Hu) in H. simpl in H.
      closure_from (Position.stop_loss pos) H.
    + intros Hu. rewrite (unset_falsy _ Hu) in H. simpl in H.
      closure_from (Position.take_profit pos) H.
  - intros pos cur Htp Hsl.
    apply checkTpSl_falsy; by apply unset_falsy.
Qed.

Lemma zero_threshold_unset_witness :
  (∃ row,
     positions (Trading.positions_open 1700000200 auth7 open_req db0).1
       = positions db0 ++ [row] ∧
     Position.take_profit row = Null) ∧
  (Trading.checkTpSl zero_pos (Num (Fin 5))).1 = false.
Proof.
  destruct zero_threshold_unset as (Hopen & _ & Hnone). split.
  - destruct (Hopen 1700000200 auth7 open_req db0
                (Trading.positions_open 1700000200 auth7 open_req db0).1
                3 eq_refl) as (row & Hrow & _ & Htp & _).
    exists row. split; [exact Hrow |].
    apply Htp. right. exists 0%Q. split; reflexivity.
  - apply Hnone; right; exists 0%Q; split; reflexivity.
Defined.

Lemma two_writes_in_transaction {A : Type} (f : Faults) (upd1 upd2 : Db → Db)
    (a : A) (db : Db) :
  (transaction f (run (on_write f 0) upd1;; run (on_write f 1) upd2);;
   mret a) db =
    if Spec.any_fault f then (db, Thrown)
    else (upd2 (upd1 db), Returned a).
Proof.
  unfold Spec.any_fault, transaction, run, mbind, Tx_bind, Store.bind,
    mret, Tx_ret, Store.ret.
  destruct (on_begin f); [done |].
  destruct (on_write f 0); [done |].
  destruct (on_write f 1); [done |].
  by destruct (on_commit f).
Qed.

Lemma two_writes_only (f : Faults) (upd1 upd2 : Db → Db) (db : Db) :
  transaction f (run (on_write f 0) upd1;; run (on_write f 1) upd2) db =
    if Spec.any_fault f then (db, Thrown)
    else (upd2 (upd1 db), Returned tt).
Proof.
  unfold Spec.any_fault, transaction, run, mbind, Tx_bind, Store.bind.
  destruct (on_begin f); [done |].
  destruct (on_write f 0); [done |].
  destruct (on_write f 1); [done |].
  by destruct (on_commit f).
Qed.

(** Without the transaction wrapper a fault on the second write would
    leave the first write in place: the rollback is what the wrapper
    adds. *)
Example fault_is_mid_way :
  let body :=
    run (on_write fault_second 0)
        (update_position
           (Position.set_closed (Num (Fin 1.1050)) (Fin 0.0050) 1700000100)
           1);;
    run (on_write fault_second 1) (credit (Fin 0.0050) 7) in
  Position.status <$> (positions (body db0).1 !! 0%nat)
    = Some Position.closed ∧
  (body db0).2 = Thrown ∧
  transaction fault_second body db0 = (db0, Thrown).
Proof. repeat split. Qed.

(** C2: settlement is all or nothing on both paths. When the tick finds a
    threshold crossed, and when the manual close endpoint accepts an open
    position of the caller, the row update (status closed, close price,
    pnl, closure time) and the balance credit are committed together if
    no storage fault strikes; if a fault strikes at BEGIN, at either
    write or at COMMIT, the call throws and the database is exactly what
    it was, so the position is still open and the balance unchanged.
    What is committed is spelled out field by field: the row of the
    position ends closed with the close price, the pnl and the closure
    time; the balance of the owner ends as [balance + pnl]; no other
    row, user or table changes. *)
Theorem settlement_atomic :
  (∀ faults ts prices pos db closePrice,
     Trading.checkTpSl pos (Market.get prices (Position.asset pos))
       = (true, closePrice) →
     let pnl := Trading.tick_pnl pos closePrice in
     Trading.checkPosition faults ts prices pos db =
       if Spec.any_fault (faults (Position.id pos)) then (db, Thrown)
       else (credit pnl (Position.user_id pos)
               (update_position (Position.set_closed closePrice pnl ts)
                                (Position.id pos) db),
             Returned tt)) ∧
  (∀ faults ts auth position_id close_price db position,
     select_position position_id (auth_id auth) db = Some position →
     Position.status position = Position.open →
     let pnl := Trading.close_pnl position close_price in
     Trading.positions_close faults ts auth position_id close_price db =
       if Spec.any_fault faults then (db, Thrown)
       else (credit pnl (auth_id auth)
               (update_position
                  (Position.set_closed (Num close_price) pnl ts)
                  position_id db),
             Returned (CloseOk pnl))) ∧
  (∀ closePrice pnl ts pid uid db,
     let db' :=
       credit pnl uid
         (update_position (Position.set_closed closePrice pnl ts) pid db) in
     let closed_row (p : Position.t) :=
       {| Position.id := Position.id p;
          Position.user_id := Position.user_id p;
          Position.asset := Position.asset p;
          Position.size := Position.size p;
          Position.type := Position.type p;
          Position.entry_price := Position.entry_price p;
          Position.take_profit := Position.take_profit p;
          Position.stop_loss := Position.stop_loss p;
          Position.close_price := closePrice;
          Position.status := Position.closed;
          Position.pnl := pnl;
          Position.created_at := Position.created_at p;
          Position.closed_at := Some ts |} in
     let credited (u : User.t) :=
       {| User.email := User.email u;
          User.balance := add (User.balance u) pnl;
          User.role := User.role u;
          User.kyc_status := User.kyc_status u |} in
     positions db' =
       map (λ p, if Position.id p =? pid then closed_row p else p)
           (positions db) ∧
     users db' !! uid = credited <$> users db !! uid ∧
     User.balance <$> users db' !! uid =
       (λ u, add (User.balance u) pnl) <$> users db !! uid ∧
     (∀ other, other ≠ uid → users db' !! other = users db !! other) ∧
     transactions db' = transactions db ∧
     positions_seq db' = positions_seq db ∧
     transactions_seq db' = transactions_seq db).
Proof.
  split; [| split].
  - intros faults ts prices pos db closePrice Hc pnl.
    unfold Trading.checkPosition. rewrite Hc. apply two_writes_only.
  - intros faults ts auth pid cp db position Hsel Hopen pnl.
    unfold Trading.positions_close. rewrite Hsel.
    unfold Position.is_open. rewrite Hopen.
    apply (two_writes_in_transaction faults).
  - intros closePrice pnl ts pid uid db db' closed_row credited.
    split; [reflexivity |].
    assert (users db' !! uid = credited <$> users db !! uid) as Hu
      by apply lookup_alter_eq.
    split; [exact Hu |]. split.
    + rewrite Hu. by destruct (users db !! uid).
    + split; [| done]. intros other Hne. by apply lookup_alter_ne.
Qed.

Lemma settlement_atomic_witness :
  Trading.checkPosition (λ _, fault_second) 1700000100
    (<["EUR/USD"%string := Fin 1.1060]> Market.initial_prices) long_pos db0
    = (db0, Thrown) ∧
  Trading.positions_close fault_second 1700000100 auth7 2 (Fin 2015) db0
    = (db0, Thrown) ∧
  (let r := Trading.positions_close no_faults 1700000100 auth7 2 (Fin 2015)
                                    db0 in
   r.2 = Returned (CloseOk (Fin ((2000 - 2015) * 0.5))) ∧
   User.balance <$> users r.1 !! 7
     = Some (Fin (10000 + (2000 - 2015) * 0.5)) ∧
   (λ p, (Position.status p, Position.close_price p, Position.pnl p,
          Position.closed_at p)) <$> positions r.1 !! 1%nat
     = Some (Position.closed, Num (Fin 2015), Fin ((2000 - 2015) * 0.5),
             Some 1700000100) ∧
   positions r.1 !! 0%nat = Some long_pos) ∧
  (let r := Trading.checkPosition (λ _, no_faults) 1700000100
              (<["EUR/USD"%string := Fin 1.1060]> Market.initial_prices)
              long_pos db0 in
   User.balance <$> users r.1 !! 7
     = Some (Fin (10000 + (1.1050 - 1.1000) * 1)) ∧
   (λ p, (Position.status p, Position.close_price p, Position.pnl p,
          Position.closed_at p)) <$> positions r.1 !! 0%nat
     = Some (Position.closed, Num (Fin 1.1050),
             Fin ((1.1050 - 1.1000) * 1), Some 1700000100) ∧
   positions r.1 !! 1%nat = Some short_pos).
Proof.
  destruct settlement_atomic as (Htick & Hclose & Heffect).
  split; [| split; [| split]].
  - rewrite (Htick (λ _, fault_second) 1700000100
               (<["EUR/USD"%string := Fin 1.1060]> Market.initial_prices)
               long_pos db0 (Num (Fin 1.1050)));
      [reflexivity | vm_compute; reflexivity].
  - rewrite (Hclose fault_second 1700000100 auth7 2 (Fin 2015) db0
               short_pos); reflexivity.
  - cbv zeta.
    rewrite (Hclose no_faults 1700000100 auth7 2 (Fin 2015) db0
               short_pos) by reflexivity.
    cbn [Spec.any_fault no_faults on_begin on_write on_commit orb fst snd
         auth_id auth7].
    destruct (Heffect (Num (Fin 2015)) (Trading.close_pnl short_pos (Fin 2015))
                1700000100 2 7 db0) as (Hpos & _ & Hbal & _).
    rewrite Hbal, Hpos. repeat split.
  - cbv zeta.
    rewrite (Htick (λ _, no_faults) 1700000100
               (<["EUR/USD"%string := Fin 1.1060]> Market.initial_prices)
               long_pos db0 (Num (Fin 1.1050))) by (vm_compute; reflexivity).
    cbn [Spec.any_fault no_faults on_begin on_write on_commit orb fst snd].
    destruct (Heffect (Num (Fin 1.1050))
                (Trading.tick_pnl long_pos (Num (Fin 1.1050)))
                1700000100 1 7 db0) as (Hpos & _ & Hbal & _).
    change (Position.user_id long_pos) with 7.
    change (Position.id long_pos) with 1.
    rewrite Hbal, Hpos. repeat split.
Defined.

(** C7: opening a position computes the margin as
    [size * entry_price / 100]; a balance below the margin gets the
    "Insufficient margin" rejection and the database is left as it was;
    a balance of at least the margin gets the position inserted as an
    open row of the caller, and the users table, hence the balance, is
    not touched. *)
Theorem open_margin_check (ts : Z) (auth : Auth) (req : Trading.OpenReq)
    (db : Db) (user : User.t) :
  users db !! auth_id auth = Some user →
  let marginRequired :=
    div (mul (Trading.size req) (Trading.entry_price req)) (Fin 100) in
  (∀ s e, Trading.size req = Fin s → Trading.entry_price req = Fin e →
     marginRequired = Fin (s * e / 100)) ∧
  (lt (User.balance user) marginRequired = true →
     Trading.positions_open ts auth req db =
       (db, Returned (Error 400 "Insufficient margin"))) ∧
  (ge (User.balance user) marginRequired = true →
     ∃ db' row,
       Trading.positions_open ts auth req db =
         (db', Returned (OpenOk (positions_seq db + 1))) ∧
       users db' = users db ∧
       transactions db' = transactions db ∧
       positions db' = positions db ++ [row] ∧
       Position.id row = positions_seq db + 1 ∧
       Position.user_id row = auth_id auth ∧
       Position.status row = Position.open ∧
       Position.size row = Trading.size req ∧
       Position.entry_price row = Trading.entry_price req).
Proof.
  intros Hu marginRequired. split; [| split].
  - intros s e Hs He. subst marginRequired. rewrite Hs, He. reflexivity.
  - intros Hlt. unfold Trading.positions_open. rewrite Hu.
    fold marginRequired. by rewrite Hlt.
  - intros Hge. unfold Trading.positions_open. rewrite Hu.
    fold marginRequired.
    assert (lt (User.balance user) marginRequired = false) as ->.
    { unfold ge, le in Hge. unfold lt.
      destruct marginRequired, (User.balance user); try done.
      by rewrite Hge. }
    eexists. eexists. split; [reflexivity |]. by repeat split.
Qed.

Lemma open_margin_check_witness :
  Trading.positions_open 1700000200 auth7 huge_req db0 =
    (db0, Returned (Error 400 "Insufficient margin")) ∧
  ∃ db' row,
    Trading.positions_open 1700000200 auth7 open_req db0 =
      (db', Returned (OpenOk 3)) ∧
    users db' = users db0 ∧
    positions db' = positions db0 ++ [row].
Proof.
  split.
  - apply (open_margin_check 1700000200 auth7 huge_req db0 trader);
      vm_compute; reflexivity.
  - destruct (open_margin_check 1700000200 auth7 open_req db0 trader)
      as (_ & _ & H); [vm_compute; reflexivity |].
    destruct H as (db' & row & H1 & H2 & _ & H3 & _);
      [vm_compute; reflexivity |].
    exists db', row. repeat split; assumption.
Defined.

Lemma approve_withdrawal_transaction (f : Faults) (upd : Db → Db) (db : Db) :
  (transaction f (run (on_write f 0) upd;; mret tt);; mret Success) db =
    if on_begin f || on_write f 0 || on_commit f then (db, Thrown)
    else (upd db, Returned Success).
Proof.
  unfold transaction, run, mbind, Tx_bind, Store.bind, mret, Tx_ret,
    Store.ret.
  destruct (on_begin f); [done |].
  destruct (on_write f 0); [done |].
  by destruct (on_commit f).
Qed.

(** C10: a deposit request only inserts a pending transaction row and
    leaves every balance alone; the amount reaches the balance when an
    admin approves that pending row, in the same transaction that marks
    it approved. Approving a pending withdrawal changes the status of the
    row and no balance: the amount left the balance when the withdrawal
    was requested. A caller who is not an admin, and a row that is
    missing or not pending, change nothing. The database after each call
    is written out: the row a deposit appends is pending, of kind
    deposit, for the caller and the amount, under the next id; an
    approval sets the status of the row of that id to approved and keeps
    its other fields and the other rows; the credited balance is
    [balance + amount], the debited one [balance - amount]. *)
Theorem wallet_balance_frame :
  (∀ ts auth amount method reference db,
     Wallet.deposit ts auth amount method reference db =
       ({| users := users db;
           positions := positions db;
           positions_seq := positions_seq db;
           transactions :=
             transactions db ++
               [{| Transaction.id := transactions_seq db + 1;
                   Transaction.user_id := auth_id auth;
                   Transaction.type := Transaction.deposit;
                   Transaction.amount := amount;
                   Transaction.status := Transaction.pending;
                   Transaction.method := method;
                   Transaction.reference := reference;
                   Transaction.created_at := ts |}];
           transactions_seq := transactions_seq db + 1 |},
        Returned (SuccessMsg "Deposit request submitted"))) ∧
  (∀ faults auth tx_id db tx,
     auth_role auth = User.admin →
     select_transaction tx_id db = Some tx →
     Transaction.status tx = Transaction.pending →
     let marked (x : Transaction.t) :=
       {| Transaction.id := Transaction.id x;
          Transaction.user_id := Transaction.user_id x;
          Transaction.type := Transaction.type x;
          Transaction.amount := Transaction.amount x;
          Transaction.status := Transaction.approved;
          Transaction.method := Transaction.method x;
          Transaction.reference := Transaction.reference x;
          Transaction.created_at := Transaction.created_at x |} in
     let rows :=
       map (λ x, if Transaction.id x =? tx_id then marked x else x)
           (transactions db) in
     let credited (u : User.t) :=
       {| User.email := User.email u;
          User.balance := add (User.balance u) (Transaction.amount tx);
          User.role := User.role u;
          User.kyc_status := User.kyc_status u |} in
     Wallet.approve faults auth tx_id db =
       match Transaction.type tx with
       | Transaction.deposit =>
           if Spec.any_fault faults then (db, Thrown)
           else ({| users :=
                      alter credited (Transaction.user_id tx) (users db);
                    positions := positions db;
                    positions_seq := positions_seq db;
                    transactions := rows;
                    transactions_seq := transactions_seq db |},
                 Returned Success)
       | Transaction.withdrawal =>
           if on_begin faults || on_write faults 0 || on_commit faults
           then (db, Thrown)
           else ({| users := users db;
                    positions := positions db;
                    positions_seq := positions_seq db;
                    transactions := rows;
                    transactions_seq := transactions_seq db |},
                 Returned Success)
       end) ∧
  (∀ faults auth tx_id db,
     auth_role auth = User.user ∨
     select_transaction tx_id db = None ∨
     (∃ tx, select_transaction tx_id db = Some tx ∧
            Transaction.status tx ≠ Transaction.pending) →
     (Wallet.approve faults auth tx_id db).1 = db) ∧
  (∀ faults ts auth amount method reference db user,
     users db !! auth_id auth = Some user →
     ge (User.balance user) amount = true →
     let debited (u : User.t) :=
       {| User.email := User.email u;
          User.balance := sub (User.balance u) amount;
          User.role := User.role u;
          User.kyc_status := User.kyc_status u |} in
     Wallet.withdraw faults ts auth amount method reference db =
       if Spec.any_fault faults then (db, Thrown)
       else ({| users := alter debited (auth_id auth) (users db);
                positions := positions db;
                positions_seq := positions_seq db;
                transactions :=
                  transactions db ++
                    [{| Transaction.id := transactions_seq db + 1;
                        Transaction.user_id := auth_id auth;
                        Transaction.type := Transaction.withdrawal;
                        Transaction.amount := amount;
                        Transaction.status := Transaction.pending;
                        Transaction.method := method;
                        Transaction.reference := reference;
                        Transaction.created_at := ts |}];
                transactions_seq := transactions_seq db + 1 |},
             Returned (SuccessMsg "Withdrawal request submitted"))).
Proof.
  split; [| split; [| split]].
  - reflexivity.
  - intros faults auth tx_id db tx Hadm Hsel Hpend marked rows credited.
    unfold Wallet.approve. rewrite Hadm, Hsel, Hpend.
    destruct (Transaction.type tx).
    + rewrite (two_writes_in_transaction faults).
      by destruct (Spec.any_fault faults).
    + rewrite approve_withdrawal_transaction.
      by destruct (on_begin faults || on_write faults 0 || on_commit faults).
  - intros faults auth tx_id db H. unfold Wallet.approve.
    destruct (auth_role auth); [done |].
    destruct H as [H | [H | (tx & H & Hst)]]; [done | by rewrite H |].
    rewrite H. by destruct (Transaction.status tx).
  - intros faults ts auth amount method reference db user Hu Hge debited.
    unfold Wallet.withdraw. rewrite Hu.
    rewrite (ge_not_lt _ _ Hge).
    rewrite (two_writes_in_transaction faults).
    by destruct (Spec.any_fault faults).
Qed.

Lemma wallet_balance_frame_witness :
  (let r := Wallet.deposit 1700000300 auth7 (Fin 40) "mpesa" "REF3" db0 in
   users r.1 = users db0 ∧
   transactions r.1 !! 2%nat =
     Some {| Transaction.id := 3; Transaction.user_id := 7;
             Transaction.type := Transaction.deposit;
             Transaction.amount := Fin 40;
             Transaction.status := Transaction.pending;
             Transaction.method := "mpesa"; Transaction.reference := "REF3";
             Transaction.created_at := 1700000300 |}) ∧
  (let r := Wallet.approve no_faults auth_admin 1 db0 in
   User.balance <$> users r.1 !! 7 = Some (Fin (10000 + 250)) ∧
   Transaction.status <$> transactions r.1 !! 0%nat
     = Some Transaction.approved ∧
   transactions r.1 !! 1%nat = Some pending_withdrawal) ∧
  (let r := Wallet.approve no_faults auth_admin 2 db0 in
   users r.1 = users db0 ∧
   Transaction.status <$> transactions r.1 !! 1%nat
     = Some Transaction.approved ∧
   transactions r.1 !! 0%nat = Some pending_deposit) ∧
  Wallet.approve fault_second auth_admin 1 db0 = (db0, Thrown) ∧
  (Wallet.approve no_faults auth7 1 db0).1 = db0 ∧
  (let r := Wallet.withdraw no_faults 1700000300 auth7 (Fin 100)
                            "mpesa" "REF3" db0 in
   User.balance <$> users r.1 !! 7 = Some (Fin (10000 - 100)) ∧
   (λ x, (Transaction.type x, Transaction.status x, Transaction.amount x))
     <$> transactions r.1 !! 2%nat
     = Some (Transaction.withdrawal, Transaction.pending, Fin 100)).
Proof.
  destruct wallet_balance_frame as (Hdep & Happ & Hno & Hwd).
  split; [| split; [| split; [| split; [| split]]]].
  - cbv zeta. rewrite Hdep. split; reflexivity.
  - cbv zeta.
    rewrite (Happ no_faults auth_admin 1 db0 pending_deposit
               eq_refl eq_refl eq_refl).
    repeat split.
  - cbv zeta.
    rewrite (Happ no_faults auth_admin 2 db0 pending_withdrawal
               eq_refl eq_refl eq_refl).
    repeat split.
  - rewrite (Happ fault_second auth_admin 1 db0 pending_deposit
               eq_refl eq_refl eq_refl).
    reflexivity.
  - apply Hno. left. reflexivity.
  - cbv zeta.
    rewrite (Hwd no_faults 1700000300 auth7 (Fin 100) "mpesa"%string
               "REF3"%string db0 trader eq_refl eq_refl).
    repeat split.
Defined.

End Settlement.

(** ** The whole tick *)

Section WholeTick.
Import Market Inv.

(** From a well-formed market state the tick callback runs both halves:
    the market half does not throw, and the scan of the open positions is
    run against the prices it has just produced. *)
Lemma tick_runs env faults ts st db :
  wf (candleData st) →
  ∃ st', tickMarket env st = Some st' ∧ wf (candleData st') ∧
    tick env faults ts (st, db) =
      Some (st', Trading.tickPositions faults ts (prices st') db).
Proof.
  intros Hwf. destruct (tickMarket_total env st Hwf) as (st' & E & Hwf').
  exists st'. split; [done |]. split; [done |].
  unfold tick. cbn [fst snd]. by rewrite E.
Qed.

(** With no open position the scan changes nothing. *)
Lemma tickPositions_idle faults ts prices db :
  Forall (λ p, Position.is_open p = false) (positions db) →
  Trading.tickPositions faults ts prices db = (db, Returned tt).
Proof.
  intros H. unfold Trading.tickPositions.
  assert (filter (λ p, Position.is_open p = true) (positions db) = []) as ->;
    [| done].
  induction H as [|p l Hp _ IH]; [done |].
  rewrite filter_cons. rewrite decide_False by (by rewrite Hp). exact IH.
Qed.

End WholeTick.

(** ** More on the price feed and the aggregator *)

Section MarketExtras.
Import Market Inv Period Examples MoreExamples.

Lemma default_positive a :
  a ∈ assets → ∃ q, default_price a = Fin q ∧ (0 < q)%Q.
Proof.
  intros Ha. unfold assets in Ha.
  repeat (apply elem_of_cons in Ha as [-> | Ha];
          [eexists; split; [vm_compute; reflexivity | reflexivity] |]).
  by apply elem_of_nil in Ha.
Qed.

Lemma stepped_infinite (env : Env) (a : string) (n : num) :
  n = PInf ∨ n = NInf → (random env a <= 0.5)%Q → stepped env a n = NaN.
Proof.
  intros Hn Hr. unfold stepped. rewrite volatility_Fin.
  assert (mul n (Fin (volatilityQ a)) = n) as ->.
  { unfold volatilityQ. destruct Hn as [-> | ->]; by destruct (includes _ _). }
  assert (∀ pos, scaled_inf pos (random env a - 0.5)
                 = if Qeq_bool (random env a - 0.5) 0 then NaN
                   else if pos then NInf else PInf) as Hscaled.
  { intros pos. unfold scaled_inf.
    destruct (Qeq_bool _ 0) eqn:E0; [done |].
    destruct (Qle_bool 0 (random env a - 0.5)) eqn:E1; [| by destruct pos].
    apply Qle_bool_iff in E1.
    assert (random env a - 0.5 == 0)%Q as H0 by lra.
    apply Qeq_bool_iff in H0. congruence. }
  destruct Hn as [-> | ->]; cbn [sub mul]; rewrite Hscaled;
    by destruct (Qeq_bool _ 0).
Qed.

(** A tick heals a missing or [NaN] price: the instrument holds its
    default afterwards, which is positive. An instrument whose stored
    price was finite holds a number that is not [NaN] afterwards. An
    infinite stored price is not healed: it passes the guard, and when
    [Math.random()] draws at most 0.5 the tick stores [NaN] for it. *)
Theorem tick_heals (env : Env) (st st' : State) (a : string) :
  tickMarket env st = Some st' → a ∈ assets →
  (corrupt st a = true →
     prices st' !! a = defaults !! a ∧
     ∃ q, prices st' !! a = Some (Fin q) ∧ (0 < q)%Q) ∧
  (∀ p, prices st !! a = Some (Fin p) → corrupt st' a = false) ∧
  (prices st !! a = Some PInf ∨ prices st !! a = Some NInf →
     corrupt st a = false ∧
     ((random env a <= 0.5)%Q →
        prices st' !! a = Some NaN ∧ corrupt st' a = true)).
Proof.
  intros H Ha.
  destruct (tickMarket_effect env st st' H) as [Heff _].
  specialize (Heff a Ha). unfold tick_effect in Heff.
  split; [| split].
  - intros Hc. apply corrupt_true in Hc.
    assert (prices st' !! a = Some (default_price a)) as Hp.
    { destruct Hc as [Hc | Hc]; rewrite Hc in Heff; by destruct Heff. }
    split; [by rewrite defaults_defined |].
    destruct (default_positive a Ha) as (q & Hq & Hpos).
    exists q. by rewrite Hp, Hq.
  - intros p Hp.
    destruct (tickMarket_finite env st st' a H Ha) as [q Hq];
      [by rewrite Hp | by rewrite Hp |].
    by eapply corrupt_false_Fin.
  - intros Hinf. split.
    + apply corrupt_false. destruct Hinf as [-> | ->]; by eexists.
    + intros Hr.
      assert (∃ n, prices st !! a = Some n ∧ (n = PInf ∨ n = NInf))
        as (n & Hn & Hn') by (destruct Hinf; eauto).
      rewrite Hn in Heff.
      assert (prices st' !! a = Some (stepped env a n)) as Hp
        by (destruct Hn' as [-> | ->]; by destruct Heff).
      rewrite (stepped_infinite env a n Hn' Hr) in Hp.
      split; [done |]. apply corrupt_true. by right.
Qed.

Lemma tick_heals_witness :
  (∃ st', tickMarket env0 st_nan = Some st' ∧
          prices st' !! "EUR/USD"%string = Some (Fin 1.08542) ∧
          corrupt st' "GOLD" = false) ∧
  (∃ st', tickMarket env1 st_inf = Some st' ∧
          corrupt st_inf "GOLD" = false ∧
          prices st' !! "GOLD"%string = Some NaN).
Proof.
  assert ("EUR/USD"%string ∈ assets) as Ha by by_evaluation.
  assert ("GOLD"%string ∈ assets) as Hg by by_evaluation.
  split.
  - destruct (tickMarket_total env0 st_nan initial_wf) as (st' & E & _).
    exists st'. split; [exact E |]. split.
    + destruct (tick_heals env0 st_nan st' "EUR/USD" E Ha) as [Hd _].
      destruct Hd as [Hd _]; [vm_compute; reflexivity |].
      rewrite Hd. vm_compute. reflexivity.
    + destruct (tick_heals env0 st_nan st' "GOLD" E Hg) as (_ & Hf & _).
      apply (Hf 2034.50%Q). vm_compute. reflexivity.
  - destruct (tickMarket_total env1 st_inf initial_wf) as (st' & E & _).
    exists st'. split; [exact E |].
    destruct (tick_heals env1 st_inf st' "GOLD" E Hg) as (_ & _ & Hi).
    destruct Hi as [Hpass Hnan]; [left; vm_compute; reflexivity |].
    split; [exact Hpass |]. apply Hnan. vm_compute. discriminate.
Defined.

Lemma advanced_bounds (env : Env) (a : string) (p : Q) :
  (0 < p)%Q → (0 <= random env a < 1)%Q →
  (0.9995 * p <= advanced env a p <= 1.0005 * p)%Q.
Proof.
  intros Hp [Hr0 Hr1]. unfold advanced.
  assert (0 <= random env a * p)%Q as H0
    by (apply Qmult_le_0_compat; lra).
  assert (random env a * p <= 1 * p)%Q as H1
    by (apply Qmult_le_compat_r; lra).
  unfold volatilityQ. destruct (includes _ _); split; lra.
Qed.

(** A price of ordinary magnitude, between 1e-300 and 1e300, stays
    positive and moves by less than 0.1% of itself in one tick, whatever
    [Math.random()] returns in [0, 1). The perturbation is at most half
    the volatility, 0.05% of the price, computed exactly. *)
Theorem price_walk_bounded (env : Env) (st st' : State) (a : string) (p : Q) :
  tickMarket env st = Some st' → a ∈ assets →
  prices st !! a = Some (Fin p) → (10 ^ (-300) <= p <= 10 ^ 300)%Q →
  (0 <= random env a < 1)%Q →
  ∃ p', prices st' !! a = Some (Fin p') ∧
        (0 < p')%Q ∧ (0.999 * p < p' < 1.001 * p)%Q.
Proof.
  intros H Ha Hp [Hlo _] Hr.
  assert (0 < p)%Q as Hpos.
  { eapply Qlt_le_trans; [| exact Hlo]. reflexivity. }
  destruct (tickMarket_effect env st st' H) as [Heff _].
  specialize (Heff a Ha). unfold tick_effect in Heff. rewrite Hp in Heff.
  cbv zeta in Heff. rewrite stepped_Fin in Heff.
  destruct Heff as [Hp' _]. exists (advanced env a p).
  pose proof (advanced_bounds env a p Hpos Hr) as Hb.
  split; [done |]. split; [lra | lra].
Qed.

Lemma price_walk_bounded_witness :
  ∃ st' p', tickMarket env0 initial = Some st' ∧
            prices st' !! "GOLD"%string = Some (Fin p') ∧
            (0.999 * 2034.50 < p' < 1.001 * 2034.50)%Q.
Proof.
  destruct (tickMarket_total env0 initial initial_wf) as (st' & E & _).
  assert ("GOLD"%string ∈ assets) as Ha by by_evaluation.
  destruct (price_walk_bounded env0 initial st' "GOLD" 2034.50 E Ha)
    as (p' & Hp' & _ & Hb).
  - vm_compute. reflexivity.
  - split; vm_compute; discriminate.
  - split; [discriminate | reflexivity].
  - exists st', p'. split; [exact E |]. split; [exact Hp' | exact Hb].
Defined.

(** Processing one instrument leaves the price and the series of every
    other key alone, and a whole tick touches no key outside the list of
    instruments. *)
Theorem tick_frame (env : Env) (st : State) :
  (∀ a st1 b, stepAsset env st a = Some st1 → b ≠ a →
     prices st1 !! b = prices st !! b ∧
     ∀ k, series (candleData st1) b k = series (candleData st) b k) ∧
  (∀ st' b, tickMarket env st = Some st' → b ∉ assets →
     prices st' !! b = prices st !! b ∧
     ∀ k, series (candleData st') b k = series (candleData st) b k).
Proof.
  split.
  - intros a st1 b H Hne.
    destruct (stepAsset_effect env st a st1 H) as [_ Hframe].
    destruct (Hframe b Hne) as [Hp Hs]. split; [done |].
    intros k. by rewrite Hs.
  - intros st' b H Hb.
    destruct (tickMarket_effect env st st' H) as [_ Hframe].
    destruct (Hframe b Hb) as [Hp Hs]. split; [done |].
    intros k. by rewrite Hs.
Qed.

Lemma tick_frame_witness :
  ∃ st1, stepAsset env0 initial "GOLD" = Some st1 ∧
         prices st1 !! "OIL"%string = Some (Fin 78.45) ∧
         series (candleData st1) "OIL" "1m" = Some [].
Proof.
  destruct (stepAsset_total env0 initial "GOLD") as [st1 E].
  { intros tf Htf. apply initial_wf; [by_evaluation | exact Htf]. }
  destruct (tick_frame env0 initial) as [Hstep _].
  destruct (Hstep "GOLD"%string st1 "OIL"%string E) as [Hp Hs];
    [discriminate |].
  exists st1. split; [exact E |]. split.
  - rewrite Hp. vm_compute. reflexivity.
  - rewrite Hs. vm_compute. reflexivity.
Defined.

Lemma evict_snoc (l : list Candle) :
  ∃ pre, ∀ y, evict (l ++ [y]) = pre ++ [y].
Proof.
  destruct l as [|c0 l].
  - exists []. intros y. reflexivity.
  - destruct (decide (200 < Z.of_nat (length ((c0 :: l) ++ [c0])))) as [H | H].
    + exists l. intros y. unfold evict.
      rewrite length_app in *. simpl in *.
      by destruct (Z.ltb_spec 200 (Z.of_nat (S (length l + 1)))); [| lia].
    + exists (c0 :: l). intros y. unfold evict.
      rewrite length_app in *. simpl in *.
      by destruct (Z.ltb_spec 200 (Z.of_nat (S (length l + 1)))); [lia |].
Qed.

Lemma updateSeries_fold (d now : Z) (price : num) (pre : list Candle)
    (c : Candle) :
  now / d * d ≤ time c →
  updateSeries d now price (pre ++ [c]) =
    pre ++ [mkCandle (time c) (open c) (max (high c) price)
                     (min (low c) price) price].
Proof.
  intros H. unfold updateSeries. rewrite last_snoc, removelast_last.
  by destruct (Z.ltb_spec (time c) (now / d * d)); [lia |].
Qed.

Lemma feed_cons (d : Z) (tk : Z * num) (rest : list (Z * num))
    (l : list Candle) :
  feed d (tk :: rest) l = feed d rest (updateSeries d tk.1 tk.2 l).
Proof. reflexivity. Qed.

Lemma feed_same_period (d t : Z) (rest : list (Z * num)) (pre : list Candle)
    (c : Candle) :
  time c = t → Forall (λ tk, tk.1 / d * d = t) rest →
  feed d rest (pre ++ [c]) =
    pre ++ [mkCandle t (open c) (foldl max (high c) rest.*2)
                     (foldl min (low c) rest.*2)
                     (default (close c) (last rest.*2))].
Proof.
  revert c. induction rest as [|[now p] rest IH]; intros c Ht Hall.
  - simpl. destruct c. simpl in *. by subst.
  - apply Forall_cons in Hall as [Hnow Hall]. simpl in Hnow.
    rewrite feed_cons. cbn [fst snd].
    rewrite updateSeries_fold by lia.
    rewrite IH by done. cbn [open high low close fmap list_fmap foldl snd].
    do 3 f_equal.
    destruct rest as [|tk rest]; [done |].
    cbn [fmap list_fmap]. rewrite last_cons_cons.
    destruct (last (tk.2 :: rest.*2)) eqn:E; [done |].
    by apply last_None in E.
Qed.

(** The ticks of one period build one candle: its open is the first price
    of the period, its close the last, its high and low the running
    [Math.max] and [Math.min] of all of them; the candle is pushed once and
    the head of a full series is dropped once. *)
Theorem period_ohlc (d t now1 : Z) (p1 : num) (rest : list (Z * num))
    (l : list Candle) :
  (∀ lc, last l = Some lc → time lc < t) →
  now1 / d * d = t → Forall (λ tk, tk.1 / d * d = t) rest →
  feed d ((now1, p1) :: rest) l =
    evict (l ++ [mkCandle t p1 (foldl max p1 rest.*2) (foldl min p1 rest.*2)
                          (default p1 (last rest.*2))]).
Proof.
  intros Hold Hnow Hall. rewrite feed_cons. cbn [fst snd].
  rewrite updateSeries_push by (by rewrite Hnow).
  destruct (evict_snoc l) as [pre Hpre]. rewrite !Hpre, Hnow.
  by rewrite (feed_same_period d t).
Qed.

Lemma period_ohlc_witness :
  feed 60 [(120, Fin 5); (130, Fin 7); (145, Fin 4); (179, Fin 6)] [c60] =
    [c60; mkCandle 120 (Fin 5) (Fin 7) (Fin 4) (Fin 6)].
Proof.
  rewrite (period_ohlc 60 120 120 (Fin 5)
             [(130, Fin 7); (145, Fin 4); (179, Fin 6)] [c60]).
  - reflexivity.
  - intros lc [= <-]. reflexivity.
  - reflexivity.
  - repeat constructor.
Defined.

(** An aggregation step rewrites no candle but the last: the candles
    before the last one of the new series are candles of the old series,
    in the same order. The series grows by at most one candle and never
    gets shorter, and the close of its last candle is the price of the
    tick. *)
Theorem history_immutable (d now : Z) (price : num) (l : list Candle) :
  removelast (updateSeries d now price l) `sublist_of` l ∧
  (length l ≤ length (updateSeries d now price l) ≤ S (length l))%nat ∧
  ∃ c, last (updateSeries d now price l) = Some c ∧
       close c = price ∧ now / d * d ≤ time c.
Proof.
  assert (∀ fresh, close fresh = price → time fresh = now / d * d →
            removelast (evict (l ++ [fresh])) `sublist_of` l ∧
            (length l ≤ length (evict (l ++ [fresh])) ≤ S (length l))%nat ∧
            ∃ c, last (evict (l ++ [fresh])) = Some c ∧
                 close c = price ∧ now / d * d ≤ time c) as Hpush.
  { intros fresh Hc Ht. split; [| split].
    - unfold evict. destruct (_ <? _).
      + destruct l as [|c0 l]; [done |]. simpl.
        rewrite removelast_last. by apply sublist_cons.
      + by rewrite removelast_last.
    - unfold evict. rewrite length_app. simpl.
      destruct (Z.ltb_spec 200 (Z.of_nat (length l + 1))).
      + destruct l as [|c0 l]; simpl in *; [lia |].
        rewrite length_app. simpl. lia.
      + rewrite length_app. simpl. lia.
    - exists fresh. split; [apply evict_last |]. split; [done | lia]. }
  unfold updateSeries. destruct (last l) as [lc|] eqn:El.
  - destruct (Z.ltb_spec (time lc) (now / d * d)); [by apply Hpush |].
    apply last_Some in El as [pre ->]. rewrite !removelast_last.
    split; [by apply sublist_inserts_r |].
    split; [rewrite !length_app; simpl; lia |].
    eexists. split; [apply last_snoc |]. by split.
  - by apply Hpush.
Qed.

(** From the start-up state on, the market half of a tick never throws:
    every series it reads exists, and the state it produces is again one
    the loop can continue from. *)
Theorem tick_never_throws (env : Env) (st : State) :
  reachable st → ∃ st', tickMarket env st = Some st' ∧ reachable st'.
Proof.
  intros Hr. destruct (tickMarket_total env st (reachable_wf st Hr))
    as (st' & E & _).
  exists st'. split; [done |]. by eapply reach_tick.
Qed.

Lemma tick_never_throws_witness :
  ∃ st' st'', tickMarket env0 initial = Some st' ∧
              tickMarket env0 st' = Some st''.
Proof.
  destruct (tick_never_throws env0 initial reach_initial) as (st' & E & Hr).
  destruct (tick_never_throws env0 st' Hr) as (st'' & E' & _).
  exists st', st''. split; [exact E | exact E'].
Defined.

End MarketExtras.

(** ** The tables: identifiers, ownership and repeated requests *)

Section Tables.
Import Examples.

Lemma find_fmap_invariant {A : Type} (P : A → bool) (f : A → A) (l : list A) :
  (∀ x, P (f x) = P x) → find P (map f l) = f <$> find P l.
Proof.
  intros HP. induction l as [|x l IH]; [done |]. simpl.
  rewrite HP. by destruct (P x).
Qed.

Lemma find_Some_elem {A : Type} (P : A → bool) (l : list A) (x : A) :
  find P l = Some x → x ∈ l ∧ P x = true.
Proof.
  induction l as [|y l IH]; [done |]. simpl.
  destruct (P y) eqn:E.
  - intros [= <-]. split; [constructor | done].
  - intros H. destruct (IH H). split; [by constructor | done].
Qed.

Lemma find_None_all {A : Type} (P : A → bool) (l : list A) :
  find P l = None ↔ Forall (λ x, P x = false) l.
Proof.
  induction l as [|y l IH]; simpl; [by split; [constructor |] |].
  destruct (P y) eqn:E.
  - split; [done |]. intros H. apply Forall_cons in H as [H _]. congruence.
  - rewrite IH. split; [by constructor | by intros [_ ?]%Forall_cons].
Qed.

Lemma unique_position (l : list Position.t) (p q : Position.t) :
  NoDup (Position.id <$> l) → p ∈ l → q ∈ l →
  Position.id p = Position.id q → p = q.
Proof.
  intros Hnd Hp Hq Hid.
  apply list_elem_of_lookup in Hp as [i Hi], Hq as [j Hj].
  assert (i = j) as ->; [| congruence].
  eapply NoDup_lookup; [exact Hnd | |]; rewrite list_lookup_fmap.
  - by rewrite Hi.
  - rewrite Hj. simpl. by rewrite Hid.
Qed.

Lemma ids_update_position (f : Position.t → Position.t) (pid : Z)
    (l : list Position.t) :
  (∀ p, Position.id (f p) = Position.id p) →
  Position.id <$> map (λ p, if Position.id p =? pid then f p else p) l
    = Position.id <$> l.
Proof.
  intros Hf. induction l as [|p l IH]; [done |]. csimpl.
  rewrite IH. f_equal. destruct (_ =? _); [apply Hf | done].
Qed.

Lemma ids_update_transaction (f : Transaction.t → Transaction.t) (tid : Z)
    (l : list Transaction.t) :
  (∀ x, Transaction.id (f x) = Transaction.id x) →
  Transaction.id <$> map (λ x, if Transaction.id x =? tid then f x else x) l
    = Transaction.id <$> l.
Proof.
  intros Hf. induction l as [|p l IH]; [done |]. csimpl.
  rewrite IH. f_equal. destruct (_ =? _); [apply Hf | done].
Qed.

Lemma wf_update_position (f : Position.t → Position.t) (pid : Z) (db : Db) :
  (∀ p, Position.id (f p) = Position.id p) →
  DbInv.wf db → DbInv.wf (update_position f pid db).
Proof.
  intros Hf [H1 H2 H3 H4].
  pose proof (ids_update_position f pid (positions db) Hf) as Hids.
  split; simpl; [by rewrite Hids | | done | done].
  apply Forall_forall. intros q Hq.
  apply list_elem_of_fmap in Hq as (p & -> & Hp).
  rewrite Forall_forall in H2. specialize (H2 p Hp).
  destruct (_ =? _); [by rewrite Hf | done].
Qed.

Lemma wf_update_transaction (f : Transaction.t → Transaction.t) (tid : Z)
    (db : Db) :
  (∀ x, Transaction.id (f x) = Transaction.id x) →
  DbInv.wf db → DbInv.wf (update_transaction f tid db).
Proof.
  intros Hf [H1 H2 H3 H4].
  pose proof (ids_update_transaction f tid (transactions db) Hf) as Hids.
  split; simpl; [done | done | by rewrite Hids |].
  apply Forall_forall. intros q Hq.
  apply list_elem_of_fmap in Hq as (p & -> & Hp).
  rewrite Forall_forall in H4. specialize (H4 p Hp).
  destruct (_ =? _); [by rewrite Hf | done].
Qed.

Lemma wf_credit x uid db : DbInv.wf db → DbInv.wf (credit x uid db).
Proof. by intros []. Qed.

Lemma wf_debit x uid db : DbInv.wf db → DbInv.wf (debit x uid db).
Proof. by intros []. Qed.

Lemma fresh_id_position (db : Db) :
  DbInv.wf db → positions_seq db + 1 ∉ Position.id <$> positions db.
Proof.
  intros [_ H _ _] Hin. apply list_elem_of_fmap in Hin as (p & Hid & Hp).
  rewrite Forall_forall in H. specialize (H p Hp). lia.
Qed.

Lemma wf_insert_position (row : Position.t) (db : Db) :
  Position.id row = positions_seq db + 1 →
  DbInv.wf db →
  DbInv.wf (set_positions (positions db ++ [row]) (positions_seq db + 1) db).
Proof.
  intros Hid Hwf. pose proof (fresh_id_position db Hwf) as Hfresh.
  destruct Hwf as [H1 H2 H3 H4]. split; simpl; [| | done | done].
  - rewrite fmap_app. apply NoDup_app. split; [done |]. split.
    + intros x Hx Hx'. simpl in Hx'. apply list_elem_of_singleton in Hx'.
      subst x. by rewrite Hid in Hx.
    + simpl. apply NoDup_singleton.
  - apply Forall_app. split.
    + eapply Forall_impl; [exact H2 |]. simpl. intros. lia.
    + repeat constructor. lia.
Qed.

Lemma wf_insert_transaction uid k amount method reference ts db :
  DbInv.wf db →
  DbInv.wf (Wallet.insert_transaction uid k amount method reference ts db).
Proof.
  intros [H1 H2 H3 H4]. split; simpl; [done | done | |].
  - rewrite fmap_app. apply NoDup_app. split; [done |]. split.
    + intros x Hx Hx'. simpl in Hx'. apply list_elem_of_singleton in Hx'.
      subst x. apply list_elem_of_fmap in Hx as (q & Hid & Hq).
      rewrite Forall_forall in H4. specialize (H4 q Hq). lia.
    + simpl. apply NoDup_singleton.
  - apply Forall_app. split.
    + eapply Forall_impl; [exact H4 |]. simpl. intros. lia.
    + repeat constructor. simpl. lia.
Qed.

(** A transaction of two writes ends in the old state or in the state
    after both. *)
Lemma two_writes_cases {A : Type} (f : Faults) (upd1 upd2 : Db → Db)
    (a : A) (db : Db) :
  (transaction f (run (on_write f 0) upd1;; run (on_write f 1) upd2);;
   mret a) db = (db, Thrown) ∨
  (transaction f (run (on_write f 0) upd1;; run (on_write f 1) upd2);;
   mret a) db = (upd2 (upd1 db), Returned a).
Proof.
  rewrite two_writes_in_transaction. destruct (Spec.any_fault f); [by left | by right].
Qed.

Lemma wf_checkPosition faults ts prices pos db :
  DbInv.wf db →
  DbInv.wf (Trading.checkPosition faults ts prices pos db).1.
Proof.
  intros Hwf. unfold Trading.checkPosition.
  destruct (Trading.checkTpSl _ _) as [[|] cp]; [| done].
  rewrite two_writes_only. destruct (Spec.any_fault _); [done |].
  simpl. by apply wf_credit, wf_update_position.
Qed.

Lemma wf_forEach_checkPosition faults ts prices l db :
  DbInv.wf db →
  DbInv.wf (forEachTx (Trading.checkPosition faults ts prices) l db).1.
Proof.
  revert db. induction l as [|pos l IH]; intros db Hwf; [done |].
  simpl. unfold Store.bind.
  pose proof (wf_checkPosition faults ts prices pos db Hwf) as H1.
  destruct (Trading.checkPosition faults ts prices pos db) as [db1 [[]|]];
    simpl in *; [by apply IH | done].
Qed.

(** Every handler that writes, and the scan of the tick, keep the row ids
    of both tables unique and behind the counters; the id returned for a
    new position is one no row carried before. *)
Theorem ids_stay_unique (db : Db) :
  DbInv.wf db →
  (∀ ts auth req,
     DbInv.wf (Trading.positions_open ts auth req db).1 ∧
     ∀ db' rowid,
       Trading.positions_open ts auth req db = (db', Returned (OpenOk rowid)) →
       rowid ∉ Position.id <$> positions db) ∧
  (∀ faults ts auth position_id close_price,
     DbInv.wf
       (Trading.positions_close faults ts auth position_id close_price db).1) ∧
  (∀ ts auth amount method reference,
     DbInv.wf (Wallet.deposit ts auth amount method reference db).1) ∧
  (∀ faults ts auth amount method reference,
     DbInv.wf (Wallet.withdraw faults ts auth amount method reference db).1) ∧
  (∀ faults auth tx_id, DbInv.wf (Wallet.approve faults auth tx_id db).1) ∧
  (∀ faults ts prices,
     DbInv.wf (Trading.tickPositions faults ts prices db).1).
Proof.
  intros Hwf. split; [| split; [| split; [| split; [| split]]]].
  - intros ts auth req. split.
    + unfold Trading.positions_open.
      destruct (users db !! auth_id auth); [| done].
      destruct (lt _ _); [done |]. simpl. by apply wf_insert_position.
    + intros db' rowid. unfold Trading.positions_open.
      destruct (users db !! auth_id auth); [| done].
      destruct (lt _ _); [done |]. intros [= <- <-].
      by apply fresh_id_position.
  - intros faults ts auth position_id close_price.
    unfold Trading.positions_close.
    destruct (select_position _ _ _) as [position|]; [| done].
    destruct (negb _); [done |].
    match goal with
    | |- DbInv.wf (?t db).1 =>
        destruct (two_writes_cases faults
                    (update_position
                       (Position.set_closed (Num close_price)
                          (Trading.close_pnl position close_price) ts)
                       position_id)
                    (credit (Trading.close_pnl position close_price)
                            (auth_id auth))
                    (CloseOk (Trading.close_pnl position close_price)) db)
          as [-> | ->]
    end; [done |].
    simpl. by apply wf_credit, wf_update_position.
  - intros ts auth amount method reference.
    simpl. by apply wf_insert_transaction.
  - intros faults ts auth amount method reference. unfold Wallet.withdraw.
    destruct (users db !! auth_id auth); [| done].
    destruct (lt _ _); [done |].
    match goal with
    | |- DbInv.wf (?t db).1 =>
        destruct (two_writes_cases faults
                    (Wallet.insert_transaction (auth_id auth)
                       Transaction.withdrawal amount method reference ts)
                    (debit amount (auth_id auth))
                    (SuccessMsg "Withdrawal request submitted") db)
          as [-> | ->]
    end; [done |].
    simpl. by apply wf_debit, wf_insert_transaction.
  - intros faults auth tx_id.
    unfold Wallet.approve. destruct (auth_role auth); [done |].
    destruct (select_transaction _ _) as [tx|]; [| done].
    destruct (Transaction.status tx); try done.
    destruct (Transaction.type tx).
    + match goal with
      | |- DbInv.wf (?t db).1 =>
          destruct (two_writes_cases faults
                      (update_transaction
                         (Transaction.set_status Transaction.approved) tx_id)
                      (credit (Transaction.amount tx) (Transaction.user_id tx))
                      Success db) as [-> | ->]
      end; [done |].
      simpl. by apply wf_credit, wf_update_transaction.
    + rewrite approve_withdrawal_transaction.
      destruct (_ || _); [done |]. simpl. by apply wf_update_transaction.
  - intros faults ts prices.
    unfold Trading.tickPositions. by apply wf_forEach_checkPosition.
Qed.

Lemma db0_wf : DbInv.wf db0.
Proof.
  split; [by_evaluation | | by_evaluation |];
    repeat constructor; vm_compute; discriminate.
Qed.

Lemma ids_stay_unique_witness :
  DbInv.wf (Trading.positions_open 1700000200 auth7 open_req db0).1 ∧
  DbInv.wf
    (Trading.tickPositions (λ _, no_faults) 1700000100
       (<["EUR/USD"%string := Fin 1.1060]> Market.initial_prices) db0).1.
Proof.
  destruct (ids_stay_unique db0 db0_wf) as (Hopen & _ & _ & _ & _ & Htick).
  split; [apply Hopen | apply Htick].
Defined.

Lemma select_position_spec pid uid db position :
  select_position pid uid db = Some position →
  position ∈ positions db ∧ Position.id position = pid ∧
  Position.user_id position = uid.
Proof.
  unfold select_position. intros H.
  apply find_Some_elem in H as [Hin HP].
  apply andb_prop in HP as [H1 H2]. split; [done |]. split; lia.
Qed.

Lemma select_after_update (f : Position.t → Position.t) pid uid db position :
  (∀ p, Position.id (f p) = Position.id p) →
  (∀ p, Position.user_id (f p) = Position.user_id p) →
  select_position pid uid db = Some position →
  select_position pid uid (update_position f pid db) = Some (f position).
Proof.
  intros Hid Hu Hsel. unfold select_position, update_position. simpl.
  rewrite find_fmap_invariant.
  - fold (select_position pid uid db). rewrite Hsel. simpl.
    apply select_position_spec in Hsel as (_ & <- & _).
    by rewrite Z.eqb_refl.
  - intros x. destruct (Position.id x =? pid) eqn:E; [| by rewrite E].
    by rewrite Hid, Hu, E.
Qed.

(** What a successful manual close leaves behind. *)
Lemma positions_close_success faults ts auth pid cp db db' pnl :
  Trading.positions_close faults ts auth pid cp db
    = (db', Returned (CloseOk pnl)) →
  ∃ position,
    select_position pid (auth_id auth) db = Some position ∧
    Position.status position = Position.open ∧
    pnl = Trading.close_pnl position cp ∧
    db' = credit pnl (auth_id auth)
            (update_position (Position.set_closed (Num cp) pnl ts) pid db).
Proof.
  unfold Trading.positions_close.
  destruct (select_position _ _ _) as [position|] eqn:Hsel; [| done].
  unfold Position.is_open.
  destruct (Position.status position) eqn:Hst; simpl; [| done].
  rewrite (two_writes_in_transaction faults).
  destruct (Spec.any_fault faults); [done |]. intros [= <- <-].
  by exists position.
Qed.

(** A position is settled once. After a successful manual close the row
    read back by the caller is the closed row with the close price and the
    pnl of the response; every further close of that id by the caller is
    rejected and changes nothing; and no row with that id is open, so the
    tick does not pick it up either. *)
Theorem close_once (faults : Faults) (ts : Z) (auth : Auth)
    (position_id : Z) (close_price : num) (db db' : Db) (pnl : num) :
  Trading.positions_close faults ts auth position_id close_price db
    = (db', Returned (CloseOk pnl)) →
  (∃ position,
     select_position position_id (auth_id auth) db = Some position ∧
     select_position position_id (auth_id auth) db' =
       Some (Position.set_closed (Num close_price) pnl ts position) ∧
     pnl = Trading.close_pnl position close_price) ∧
  (∀ faults' ts' close_price',
     Trading.positions_close faults' ts' auth position_id close_price' db'
       = (db', Returned (Error 400 "Invalid position"))) ∧
  (∀ p, p ∈ positions db' → Position.id p = position_id →
        Position.is_open p = false).
Proof.
  intros H.
  apply positions_close_success in H as (position & Hsel & Hst & Hpnl & ->).
  assert (select_position position_id (auth_id auth)
            (credit pnl (auth_id auth)
               (update_position
                  (Position.set_closed (Num close_price) pnl ts)
                  position_id db))
          = Some (Position.set_closed (Num close_price) pnl ts position))
    as Hsel'.
  { exact (select_after_update
             (Position.set_closed (Num close_price) pnl ts)
             position_id (auth_id auth) db position
             (λ _, eq_refl) (λ _, eq_refl) Hsel). }
  split; [by exists position |]. split.
  - intros faults' ts' cp'. unfold Trading.positions_close.
    by rewrite Hsel'.
  - intros p Hp Hid. simpl in Hp.
    apply list_elem_of_fmap in Hp as (q & -> & Hq).
    destruct (Z.eqb_spec (Position.id q) position_id); [done |].
    congruence.
Qed.

Lemma close_once_witness :
  Trading.positions_close no_faults 1700000400 auth7 2 (Fin 1990)
    (Trading.positions_close no_faults 1700000100 auth7 2 (Fin 2015) db0).1
  = ((Trading.positions_close no_faults 1700000100 auth7 2 (Fin 2015) db0).1,
     Returned (Error 400 "Invalid position")).
Proof.
  apply (close_once no_faults 1700000100 auth7 2 (Fin 2015) db0 _
           (Fin ((2000 - 2015) * 0.5))).
  reflexivity.
Defined.

(** A manual close acts on the caller alone. When no row with the given
    id belongs to the caller the request is rejected and nothing changes;
    in every case the rows of other users, their balances and the
    transactions table are what they were, and no row is added or
    removed. *)
Theorem close_touches_only_caller (faults : Faults) (ts : Z) (auth : Auth)
    (position_id : Z) (close_price : num) (db : Db) :
  DbInv.wf db →
  let r := Trading.positions_close faults ts auth position_id close_price db in
  ((∀ p, p ∈ positions db → Position.id p = position_id →
         Position.user_id p ≠ auth_id auth) →
     r = (db, Returned (Error 400 "Invalid position"))) ∧
  (∀ i p, positions db !! i = Some p →
          Position.user_id p ≠ auth_id auth →
          positions r.1 !! i = Some p) ∧
  (∀ u, u ≠ auth_id auth → users r.1 !! u = users db !! u) ∧
  transactions r.1 = transactions db ∧
  length (positions r.1) = length (positions db).
Proof.
  intros Hwf r. split.
  - intros Hown. subst r. unfold Trading.positions_close.
    destruct (select_position _ _ _) as [position|] eqn:Hsel; [| done].
    apply select_position_spec in Hsel as (Hin & Hid & Hu).
    by destruct (Hown position Hin Hid).
  - subst r. unfold Trading.positions_close.
    destruct (select_position _ _ _) as [position|] eqn:Hsel;
      [| by repeat split].
    destruct (negb _); [by repeat split |].
    destruct (two_writes_cases faults
                (update_position
                   (Position.set_closed (Num close_price)
                      (Trading.close_pnl position close_price) ts)
                   position_id)
                (credit (Trading.close_pnl position close_price)
                        (auth_id auth))
                (CloseOk (Trading.close_pnl position close_price)) db)
      as [-> | ->]; [by repeat split |].
    apply select_position_spec in Hsel as (Hin & Hid & Hu).
    split; [| split; [| split]].
    + intros i p Hi Hne. simpl. rewrite list_lookup_fmap, Hi. simpl.
      destruct (Z.eqb_spec (Position.id p) position_id) as [Hp | Hp]; [| done].
      assert (p = position); [| congruence].
      apply (unique_position (positions db)); [by destruct Hwf | | done | congruence].
      apply list_elem_of_lookup. by exists i.
    + intros u Hne. simpl. by apply lookup_alter_ne.
    + done.
    + simpl. by rewrite length_map.
Qed.

Lemma close_touches_only_caller_witness :
  Trading.positions_close no_faults 1700000100 auth_admin 2 (Fin 2015) db0
    = (db0, Returned (Error 400 "Invalid position")).
Proof.
  apply (close_touches_only_caller no_faults 1700000100 auth_admin 2
           (Fin 2015) db0 db0_wf).
  intros p Hp Hid. simpl in Hp.
  repeat (apply elem_of_cons in Hp as [-> | Hp]; [discriminate |]).
  by apply elem_of_nil in Hp.
Defined.

Lemma select_transaction_after_update (f : Transaction.t → Transaction.t)
    tid db tx :
  (∀ x, Transaction.id (f x) = Transaction.id x) →
  select_transaction tid db = Some tx →
  select_transaction tid (update_transaction f tid db) = Some (f tx).
Proof.
  intros Hid Hsel. unfold select_transaction, update_transaction. simpl.
  rewrite find_fmap_invariant.
  - fold (select_transaction tid db). rewrite Hsel. simpl.
    unfold select_transaction in Hsel.
    apply find_Some_elem in Hsel as [_ ->]. done.
  - intros x. destruct (Transaction.id x =? tid) eqn:E; [| by rewrite E].
    by rewrite Hid, E.
Qed.

(** A pending transaction is approved once: after a successful approval
    every further approval of that id, by anyone and whatever the storage
    does, is answered with an error and changes nothing, so a deposit is
    credited at most once. *)
Theorem approve_once (faults : Faults) (auth : Auth) (tx_id : Z)
    (db db' : Db) :
  Wallet.approve faults auth tx_id db = (db', Returned Success) →
  ∀ faults' auth',
    ∃ status error,
      Wallet.approve faults' auth' tx_id db'
        = (db', Returned (Error status error)).
Proof.
  unfold Wallet.approve. destruct (auth_role auth); [done |].
  destruct (select_transaction tx_id db) as [tx|] eqn:Hsel; [| done].
  destruct (Transaction.status tx) eqn:Hst; try done.
  intros H faults' auth'.
  assert (select_transaction tx_id db' =
            Some (Transaction.set_status Transaction.approved tx)) as Hsel'.
  { pose proof (select_transaction_after_update
                  (Transaction.set_status Transaction.approved) tx_id db tx
                  (λ _, eq_refl) Hsel) as Hupd.
    destruct (Transaction.type tx).
    - rewrite (two_writes_in_transaction faults) in H.
      destruct (Spec.any_fault faults); [done |]. by injection H as <-.
    - rewrite approve_withdrawal_transaction in H.
      destruct (_ || _); [done |]. by injection H as <-. }
  destruct (auth_role auth'); [by eexists _, _ |].
  rewrite Hsel'. simpl. by eexists _, _.
Qed.

Lemma approve_once_witness :
  ∃ status error,
    Wallet.approve no_faults auth_admin 1
      (Wallet.approve no_faults auth_admin 1 db0).1
    = ((Wallet.approve no_faults auth_admin 1 db0).1,
       Returned (Error status error)).
Proof.
  apply (approve_once no_faults auth_admin 1 db0). reflexivity.
Defined.

End Tables.

(** ** Withdrawals and the list of active positions *)

Section WalletAndQueries.
Import Examples Queries.






Lemma filter_snoc_active (auth : Auth) (l : list Position.t) (row : Position.t) :
  filter (λ p, Position.user_id p = auth_id auth ∧ Position.is_open p = true)
         (l ++ [row]) =
  filter (λ p, Position.user_id p = auth_id auth ∧ Position.is_open p = true)
         l ++
  (if decide (Position.user_id row = auth_id auth ∧
              Position.is_open row = true) then [row] else []).
Proof.
  rewrite filter_app. by f_equal.
Qed.

Lemma filter_map_stable {A : Type} (P Q : A → Prop)
    `{∀ x, Decision (P x)} `{∀ x, Decision (Q x)} (g : A → A) (l : list A) :
  (∀ q, q ∈ l → (P (g q) ∧ g q = q ∧ Q q) ∨ (¬ P (g q) ∧ ¬ Q q)) →
  filter P (map g l) = filter Q l.
Proof.
  induction l as [|q l IH]; intros Hl; [done |]. csimpl.
  rewrite !filter_cons.
  rewrite IH by (intros q' Hq'; apply Hl; by constructor).
  destruct (Hl q) as [(HP & Hg & HQ) | [HP HQ]]; [constructor | |].
  - rewrite decide_True by done. rewrite decide_True by done. by rewrite Hg.
  - rewrite decide_False by done. by rewrite decide_False by done.
Qed.

(** The list of active positions follows the handlers. It holds open rows
    of the caller only. A position that has just been opened is added at
    its end, and the lists of other users do not change. After a
    successful close the closed row is gone from the caller's list, every
    other row of it is kept in order, and the lists of other users do not
    change. *)
Theorem active_positions_follow (auth : Auth) (db : Db) :
  (∀ p, p ∈ positions_active auth db →
        p ∈ positions db ∧ Position.user_id p = auth_id auth ∧
        Position.status p = Position.open) ∧
  (∀ ts req db' rowid,
     Trading.positions_open ts auth req db = (db', Returned (OpenOk rowid)) →
     (∃ row, positions_active auth db' = positions_active auth db ++ [row] ∧
             Position.id row = rowid ∧
             Position.size row = Trading.size req ∧
             Position.entry_price row = Trading.entry_price req) ∧
     ∀ other, auth_id other ≠ auth_id auth →
              positions_active other db' = positions_active other db) ∧
  (∀ faults ts position_id close_price db' pnl,
     DbInv.wf db →
     Trading.positions_close faults ts auth position_id close_price db
       = (db', Returned (CloseOk pnl)) →
     positions_active auth db' =
       filter (λ p, Position.id p ≠ position_id) (positions_active auth db) ∧
     ∀ other, auth_id other ≠ auth_id auth →
              positions_active other db' = positions_active other db).
Proof.
  split; [| split].
  - intros p Hp. unfold positions_active in Hp.
    apply list_elem_of_filter in Hp as [[Hu Ho] Hin].
    split; [done |]. split; [done |].
    unfold Position.is_open in Ho. by destruct (Position.status p).
  - intros ts req db' rowid. unfold Trading.positions_open.
    destruct (users db !! auth_id auth); [| done].
    destruct (lt _ _); [done |]. intros [= <- <-].
    unfold positions_active. simpl. split.
    + eexists. rewrite filter_snoc_active. simpl.
      rewrite decide_True by done. by repeat split.
    + intros other Hne. rewrite filter_snoc_active. simpl.
      rewrite decide_False by (by intros [? _]). by rewrite app_nil_r.
  - intros faults ts pid cp db' pnl Hwf H.
    apply positions_close_success in H as (position & Hsel & Hst & Hpnl & ->).
    apply select_position_spec in Hsel as (Hin & Hid & Hu).
    assert (∀ q, q ∈ positions db → Position.id q = pid → q = position)
      as Huniq.
    { intros q Hq Hq'. apply (unique_position (positions db));
        [by destruct Hwf | done | done | congruence]. }
    unfold positions_active. simpl. split.
    + rewrite list_filter_filter. apply filter_map_stable.
      intros q Hq. destruct (Z.eqb_spec (Position.id q) pid) as [Hq' | Hq'].
      * right. split; [by intros [_ ?] | by intros [? _]].
      * destruct (decide (Position.user_id q = auth_id auth ∧
                          Position.is_open q = true));
          [by left | right; split; [done | by intros [_ ?]]].
    + intros other Hne. apply filter_map_stable.
      intros q Hq. destruct (Z.eqb_spec (Position.id q) pid) as [Hq' | Hq'].
      * right. rewrite (Huniq q Hq Hq').
        split; [by intros [_ ?] | intros [? _]; congruence].
      * destruct (decide (Position.user_id q = auth_id other ∧
                          Position.is_open q = true)); [by left | by right].
Qed.

Lemma active_positions_follow_witness :
  positions_active auth7
    (Trading.positions_close no_faults 1700000100 auth7 2 (Fin 2015) db0).1
    = [long_pos] ∧
  positions_active auth7 db0 = [long_pos; short_pos].
Proof.
  destruct (active_positions_follow auth7 db0) as (_ & _ & Hclose).
  assert (Trading.positions_close no_faults 1700000100 auth7 2 (Fin 2015) db0
          = ((Trading.positions_close no_faults 1700000100 auth7 2 (Fin 2015)
                db0).1,
             Returned (CloseOk (Fin ((2000 - 2015) * 0.5))))) as H
    by reflexivity.
  destruct (Hclose no_faults 1700000100 2 (Fin 2015) _ _ db0_wf H) as [Heq _].
  split; [rewrite Heq |]; vm_compute; reflexivity.
Defined.

End WalletAndQueries.

(** ** The scan of the open positions as a whole *)

Section Scan.
Import Examples.

Lemma checkPosition_clean faults ts prices p db :
  Spec.any_fault (faults (Position.id p)) = false →
  Trading.checkPosition faults ts prices p db =
    (if DbInv.hit prices p
     then
       let closePrice :=
         (Trading.checkTpSl p (Market.get prices (Position.asset p))).2 in
       credit (Trading.tick_pnl p closePrice) (Position.user_id p)
         (update_position
            (Position.set_closed closePrice (Trading.tick_pnl p closePrice) ts)
            (Position.id p) db)
     else db,
     Returned tt).
Proof.
  intros Hf. unfold Trading.checkPosition, DbInv.hit.
  destruct (Trading.checkTpSl _ _) as [[|] cp]; [| done].
  simpl. by rewrite two_writes_only, Hf.
Qed.

Lemma scan_list faults ts prices (L : list Position.t) :
  ∀ db,
    NoDup (Position.id <$> positions db) →
    NoDup (Position.id <$> L) →
    (∀ p, p ∈ L → p ∈ positions db) →
    (∀ p, p ∈ L → Spec.any_fault (faults (Position.id p)) = false) →
    ∃ db',
      forEachTx (Trading.checkPosition faults ts prices) L db
        = (db', Returned tt) ∧
      positions db' =
        map (λ q, if bool_decide (Position.id q ∈ Position.id <$> L)
                     && DbInv.hit prices q
                  then DbInv.settled ts prices q else q)
            (positions db) ∧
      transactions db' = transactions db ∧
      positions_seq db' = positions_seq db ∧
      transactions_seq db' = transactions_seq db ∧
      ∀ u, (∀ p, p ∈ L → Position.user_id p = u → DbInv.hit prices p = false) →
           users db' !! u = users db !! u.
Proof.
  induction L as [|p L IH]; intros db Hnd HndL Hin Hf.
  - exists db. split; [done |]. split; [| by repeat split].
    symmetry. rewrite <- (map_id (positions db)) at 2.
    by apply map_ext.
  - apply NoDup_cons in HndL as [HpL HndL].
    assert (p ∈ positions db) as Hp by (apply Hin; constructor).
    assert (∀ q, q ∈ positions db → Position.id q = Position.id p → q = p)
      as Huniq.
    { intros q Hq Hid. by apply (unique_position (positions db)). }
    assert (∀ q, q ∈ L → Position.id q ≠ Position.id p) as HneL.
    { intros q Hq Hid. apply HpL. rewrite <- Hid.
      by apply list_elem_of_fmap_2. }
    simpl. unfold Store.bind.
    rewrite checkPosition_clean by (apply Hf; constructor).
    set (cp := (Trading.checkTpSl p (Market.get prices (Position.asset p))).2).
    set (g := λ q : Position.t,
                if Position.id q =? Position.id p
                then Position.set_closed cp (Trading.tick_pnl p cp) ts q
                else q).
    assert (∀ q, q ∈ L → g q = q) as HgL.
    { intros q Hq. unfold g.
      by destruct (Z.eqb_spec (Position.id q) (Position.id p));
        [destruct (HneL q Hq) |]. }
    destruct (DbInv.hit prices p) eqn:Hhit.
    + destruct (IH (credit (Trading.tick_pnl p cp) (Position.user_id p)
                      (update_position
                         (Position.set_closed cp (Trading.tick_pnl p cp) ts)
                         (Position.id p) db)))
        as (db' & Hrun & Hpos & Htx & Hs1 & Hs2 & Hus).
      * simpl. rewrite ids_update_position; [done | by intros].
      * done.
      * intros q Hq. simpl. apply list_elem_of_fmap.
        exists q. split; [symmetry; by apply HgL | apply Hin; by constructor].
      * intros q Hq. apply Hf. by constructor.
      * exists db'. split; [done |]. split; [| split; [| split; [| split]]];
          try done.
        -- rewrite Hpos. simpl. rewrite map_map. apply map_ext_in.
           intros q Hq%list_elem_of_In. fold (g q). csimpl.
           change (list_fmap Position.t Z Position.id L)
             with (Position.id <$> L).
           destruct (Z.eqb_spec (Position.id q) (Position.id p)) as [Hid | Hid].
           ++ rewrite (Huniq q Hq Hid). unfold g. rewrite Z.eqb_refl.
              rewrite bool_decide_false by done.
              rewrite bool_decide_true by constructor.
              rewrite Hhit. reflexivity.
           ++ assert (g q = q) as -> by (unfold g;
                by destruct (Z.eqb_spec (Position.id q) (Position.id p))).
              rewrite (bool_decide_ext
                         (Position.id q ∈ Position.id p :: (Position.id <$> L))
                         (Position.id q ∈ Position.id <$> L)); [done |].
              rewrite elem_of_cons. by split; [intros [? | ?] | right].
        -- intros u Hu. rewrite Hus.
           ++ simpl. apply lookup_alter_ne. intros <-.
              specialize (Hu p ltac:(constructor) eq_refl). congruence.
           ++ intros q Hq. apply Hu. by constructor.
    + destruct (IH db) as (db' & Hrun & Hpos & Htx & Hs1 & Hs2 & Hus);
        [done | done | intros q Hq; apply Hin; by constructor
        | intros q Hq; apply Hf; by constructor |].
      exists db'. split; [done |]. split; [| split; [| split; [| split]]];
        try done.
      * rewrite Hpos. apply map_ext_in.
        intros q Hq%list_elem_of_In. csimpl.
        change (list_fmap Position.t Z Position.id L)
          with (Position.id <$> L).
        destruct (Z.eqb_spec (Position.id q) (Position.id p)) as [Hid | Hid].
        -- rewrite (Huniq q Hq Hid).
           rewrite bool_decide_false by done.
           rewrite bool_decide_true by constructor.
           by rewrite Hhit.
        -- rewrite (bool_decide_ext
                      (Position.id q ∈ Position.id p :: (Position.id <$> L))
                      (Position.id q ∈ Position.id <$> L)); [done |].
           rewrite elem_of_cons. by split; [intros [? | ?] | right].
      * intros u Hu. apply Hus. intros q Hq. apply Hu. by constructor.
Qed.

Lemma open_rows_NoDup (db : Db) :
  DbInv.wf db →
  NoDup (Position.id <$>
           filter (λ p, Position.is_open p = true) (positions db)).
Proof.
  intros [H _ _ _].
  apply (sublist_NoDup _ (Position.id <$> positions db)); [exact H |].
  apply fmap_sublist, sublist_filter.
Qed.

(** A scan that meets no storage fault settles exactly the open rows whose
    threshold is crossed, each with its own threshold as close price and
    the pnl computed from it; every other row, closed or not, is left as
    it is. The scan does not touch the transactions, and the balance of a
    user none of whose open positions is hit does not change. *)
Theorem scan_settles_hits (faults : Z → Faults) (ts : Z)
    (prices : gmap string num) (db : Db) :
  DbInv.wf db →
  (∀ p, p ∈ positions db →
        Spec.any_fault (faults (Position.id p)) = false) →
  ∃ db',
    Trading.tickPositions faults ts prices db = (db', Returned tt) ∧
    positions db' = map (DbInv.scan_row ts prices) (positions db) ∧
    transactions db' = transactions db ∧
    ∀ u,
      (∀ p, p ∈ positions db → Position.is_open p = true →
            Position.user_id p = u → DbInv.hit prices p = false) →
      users db' !! u = users db !! u.
Proof.
  intros Hwf Hf. unfold Trading.tickPositions.
  destruct (scan_list faults ts prices
              (filter (λ p, Position.is_open p = true) (positions db)) db)
    as (db' & Hrun & Hpos & Htx & _ & _ & Hus).
  - by destruct Hwf.
  - by apply open_rows_NoDup.
  - intros p Hp. by apply list_elem_of_filter in Hp as [_ ?].
  - intros p Hp. apply Hf. by apply list_elem_of_filter in Hp as [_ ?].
  - exists db'. split; [done |]. split; [| split; [done |]].
    + rewrite Hpos. apply map_ext_in. intros q Hq%list_elem_of_In.
      unfold DbInv.scan_row.
      assert (bool_decide
                (Position.id q ∈
                   Position.id <$>
                     filter (λ p, Position.is_open p = true) (positions db))
              = Position.is_open q) as ->; [| done].
      destruct (Position.is_open q) eqn:Ho.
      * apply bool_decide_eq_true. apply list_elem_of_fmap_2.
        by apply list_elem_of_filter.
      * apply bool_decide_eq_false. intros Hin.
        apply list_elem_of_fmap in Hin as (q' & Hid & Hq').
        apply list_elem_of_filter in Hq' as [Ho' Hq'].
        assert (q = q'); [| congruence].
        apply (unique_position (positions db)); [by destruct Hwf | done..].
    + intros u Hu. apply Hus. intros p Hp.
      apply list_elem_of_filter in Hp as [Ho Hp]. by apply Hu.
Qed.

Lemma scan_settles_hits_witness :
  ∃ db',
    Trading.tickPositions (λ _, no_faults) 1700000100
      (<["EUR/USD"%string := Fin 1.1060]>
         (<["GOLD"%string := Fin 2005]> Market.initial_prices)) db0
      = (db', Returned tt) ∧
    Position.status <$> positions db' = [Position.closed; Position.open].
Proof.
  destruct (scan_settles_hits (λ _, no_faults) 1700000100
              (<["EUR/USD"%string := Fin 1.1060]>
                 (<["GOLD"%string := Fin 2005]> Market.initial_prices))
              db0 db0_wf) as (db' & Hrun & Hpos & _); [reflexivity |].
  exists db'. split; [exact Hrun |]. rewrite Hpos. vm_compute. reflexivity.
Defined.

Lemma forEachTx_app {A : Type} (f : A → Tx unit) (L1 L2 : list A) (db : Db) :
  forEachTx f (L1 ++ L2) db =
    match forEachTx f L1 db with
    | (db1, Returned _) => forEachTx f L2 db1
    | (db1, Thrown) => (db1, Thrown)
    end.
Proof.
  revert db. induction L1 as [|x L1 IH]; intros db; [done |].
  simpl. unfold Store.bind. destruct (f x db) as [db1 [[]|]]; [apply IH | done].
Qed.

Lemma scan_keeps_other_rows faults ts prices (L : list Position.t) :
  ∀ db q, q ∈ positions db → Position.id q ∉ Position.id <$> L →
          q ∈ positions
                (forEachTx (Trading.checkPosition faults ts prices) L db).1.
Proof.
  induction L as [|p L IH]; intros db q Hq Hid; [done |].
  rewrite fmap_cons in Hid. apply not_elem_of_cons in Hid as [Hne Hid].
  simpl. unfold Store.bind.
  assert (q ∈ positions (Trading.checkPosition faults ts prices p db).1)
    as Hq1.
  { unfold Trading.checkPosition.
    destruct (Trading.checkTpSl _ _) as [[|] cp]; [| done].
    rewrite two_writes_only. destruct (Spec.any_fault _); [done |].
    simpl. apply list_elem_of_fmap. exists q. split; [| done].
    by destruct (Z.eqb_spec (Position.id q) (Position.id p)). }
  destruct (Trading.checkPosition faults ts prices p db) as [db1 [[]|]];
    simpl in *; [by apply IH | done].
Qed.

(** A storage fault while one position is being settled ends the scan of
    that tick: the callback throws, the database is what the scan of the
    positions before it had made it, and the faulting position and all
    those after it are left exactly as they were, open, even where their
    threshold is crossed. *)
Theorem fault_aborts_scan (faults : Z → Faults) (ts : Z)
    (prices : gmap string num) (db : Db) (L1 L2 : list Position.t)
    (p : Position.t) (closePrice : jsval) :
  DbInv.wf db →
  filter (λ p, Position.is_open p = true) (positions db) = L1 ++ p :: L2 →
  Trading.checkTpSl p (Market.get prices (Position.asset p))
    = (true, closePrice) →
  Spec.any_fault (faults (Position.id p)) = true →
  Trading.tickPositions faults ts prices db =
    ((forEachTx (Trading.checkPosition faults ts prices) L1 db).1, Thrown) ∧
  ∀ q, q ∈ p :: L2 →
       q ∈ positions (Trading.tickPositions faults ts prices db).1 ∧
       Position.is_open q = true.
Proof.
  intros Hwf HL Hhit Hfault.
  assert (Trading.tickPositions faults ts prices db =
            ((forEachTx (Trading.checkPosition faults ts prices) L1 db).1,
             Thrown)) as Hrun.
  { unfold Trading.tickPositions. rewrite HL, forEachTx_app.
    destruct (forEachTx _ L1 db) as [db1 [[]|]]; [| done].
    simpl. unfold Store.bind, Trading.checkPosition. rewrite Hhit.
    by rewrite two_writes_only, Hfault. }
  split; [done |]. intros q Hq. rewrite Hrun. simpl.
  assert (q ∈ filter (λ p, Position.is_open p = true) (positions db)) as Hq'.
  { rewrite HL. apply elem_of_app. by right. }
  apply list_elem_of_filter in Hq' as [Ho Hqdb].
  split; [| done]. apply scan_keeps_other_rows; [done |].
  pose proof (open_rows_NoDup db Hwf) as Hnd.
  rewrite HL, fmap_app in Hnd. apply NoDup_app in Hnd as (_ & Hdisj & _).
  intros Hin. apply (Hdisj _ Hin). by apply list_elem_of_fmap_2.
Qed.

Lemma fault_aborts_scan_witness :
  Trading.tickPositions
    (λ id, if id =? 1 then fault_second else no_faults) 1700000100
    (<["EUR/USD"%string := Fin 1.1060]>
       (<["GOLD"%string := Fin 2015]> Market.initial_prices)) db0
  = (db0, Thrown) ∧
  DbInv.hit (<["EUR/USD"%string := Fin 1.1060]>
               (<["GOLD"%string := Fin 2015]> Market.initial_prices))
            short_pos = true.
Proof.
  split; [| vm_compute; reflexivity].
  apply (fault_aborts_scan
           (λ id, if id =? 1 then fault_second else no_faults) 1700000100
           (<["EUR/USD"%string := Fin 1.1060]>
              (<["GOLD"%string := Fin 2015]> Market.initial_prices))
           db0 [] [short_pos] long_pos (Num (Fin 1.1050)) db0_wf);
    vm_compute; reflexivity.
Defined.

End Scan.

(** ** The client against the server *)

Section ClientServer.
Import Market Inv Examples Client.

Lemma truthy_Fin (c : Q) : truthy (Num (Fin c)) = true ↔ ¬ (c == 0)%Q.
Proof.
  simpl. rewrite negb_true_iff. split.
  - intros H Hc. apply Qeq_bool_iff in Hc. congruence.
  - intros H. destruct (Qeq_bool c 0) eqn:E; [| done].
    by apply Qeq_bool_iff in E.
Qed.

(** The client asks for a close only with a stored token, for a position
    of its own list and at a price that is a number and not [NaN]. When the
    feed holds a finite non-zero price for the instrument of a listed
    position, and the server still has that position open for the
    caller, the request is sent at that price and, absent a storage
    fault, the pnl the server settles, returns and adds to the balance is
    the number [pnl] the row of the page has computed, whose sign colours
    the cell and whose rounding to two decimals the cell prints. *)
Theorem close_settles_row_pnl (token : option string)
    (positions : list Position.t) (prices : gmap string num) :
  (∀ id req,
     handleClosePosition token positions prices id = Some req →
     no_token token = false ∧ position_id req = id ∧
     ∃ p n, p ∈ positions ∧ Position.id p = id ∧
            prices !! Position.asset p = Some n ∧ isNaN n = false ∧
            close_price req = n) ∧
  (∀ p c ts auth db,
     no_token token = false →
     find (λ q, Position.id q =? Position.id p) positions = Some p →
     prices !! Position.asset p = Some (Fin c) → ¬ (c == 0)%Q →
     select_position (Position.id p) (auth_id auth) db = Some p →
     Position.status p = Position.open →
     ∃ req db' pnl,
       handleClosePosition token positions prices (Position.id p) = Some req ∧
       position_id req = Position.id p ∧ close_price req = Fin c ∧
       Trading.positions_close no_faults ts auth (position_id req)
                               (close_price req) db
         = (db', Returned (CloseOk pnl)) ∧
       pnl = row_pnl prices p ∧
       ge pnl (Fin 0) = row_green prices p ∧
       User.balance <$> users db' !! auth_id auth =
         (λ u, add (User.balance u) (row_pnl prices p))
           <$> users db !! auth_id auth).
Proof.
  split.
  - intros id req. unfold handleClosePosition.
    destruct (no_token token); [done |].
    destruct (find _ positions) as [p|] eqn:Hf; [| done].
    apply find_Some_elem in Hf as [Hin Hid].
    unfold get. destruct (prices !! Position.asset p) as [n|] eqn:Hp;
      simpl; [| done].
    destruct (isNaN n) eqn:Hn; [done |].
    intros [= <-]. split; [done |]. split; [done |].
    exists p, n. repeat split; try done. lia.
  - intros p c ts auth db Htok Hf Hp Hc Hsel Hst.
    unfold handleClosePosition. rewrite Htok, Hf. unfold get. rewrite Hp.
    simpl. eexists. eexists. exists (row_pnl prices p).
    split; [reflexivity |]. simpl. split; [done |]. split; [done |].
    unfold Trading.positions_close. rewrite Hsel.
    unfold Position.is_open. rewrite Hst. simpl.
    rewrite (two_writes_in_transaction no_faults). simpl.
    assert (Trading.close_pnl p (Fin c) = row_pnl prices p) as ->.
    { unfold row_pnl, Trading.close_pnl, get. rewrite Hp.
      unfold or_else. by rewrite (proj2 (truthy_Fin c) Hc). }
    split; [reflexivity |]. split; [done |]. split; [done |].
    simpl. rewrite lookup_alter_eq. by destruct (users db !! auth_id auth).
Qed.

Lemma close_settles_row_pnl_witness :
  ∃ req db' pnl,
    handleClosePosition (Some "jwt"%string) [long_pos; short_pos]
      (<["GOLD"%string := Fin 2015]> initial_prices) 2 = Some req ∧
    close_price req = Fin 2015 ∧
    Trading.positions_close no_faults 1700000100 auth7 (position_id req)
                            (close_price req) db0
      = (db', Returned (CloseOk pnl)) ∧
    pnl = Fin ((2000 - 2015) * 0.5) ∧
    row_green (<["GOLD"%string := Fin 2015]> initial_prices) short_pos
      = false ∧
    User.balance <$> users db' !! 7
      = Some (Fin (10000 + (2000 - 2015) * 0.5)).
Proof.
  destruct (close_settles_row_pnl (Some "jwt"%string)
              [long_pos; short_pos]
              (<["GOLD"%string := Fin 2015]> initial_prices)) as [_ H].
  destruct (H short_pos 2015%Q 1700000100 auth7 db0)
    as (req & db' & pnl & H1 & _ & H2 & H3 & H4 & H5 & H6);
    try reflexivity; [discriminate |].
  exists req, db', pnl.
  split; [exact H1 |]. split; [exact H2 |]. split; [exact H3 |].
  split; [rewrite H4; reflexivity |].
  split; [reflexivity |].
  change 7 with (auth_id auth7). rewrite H6. reflexivity.
Defined.











End ClientServer.

(** ** The series against the price and the clock *)

Section SeriesExtras.
Import Market Inv Examples.

Lemma updateSeries_last_close (d now : Z) (price : num) (l : list Candle) :
  ∃ c, last (updateSeries d now price l) = Some c ∧ close c = price.
Proof.
  unfold updateSeries. destruct (last l) as [lc|].
  - destruct (_ <? _).
    + eexists. split; [apply evict_last | done].
    + eexists. split; [apply last_snoc | done].
  - eexists. split; [apply evict_last | done].
Qed.

(** After a tick, the last candle of every timeframe series of an
    instrument whose price passed the guard closes at the price the feed
    now holds for that instrument. *)
Theorem last_close_is_price (env : Env) (st st' : State) (a k : string)
    (d : Z) :
  tickMarket env st = Some st' → a ∈ assets → corrupt st a = false →
  (k, d) ∈ timeframes →
  ∃ l c, series (candleData st') a k = Some l ∧ last l = Some c ∧
         prices st' !! a = Some (close c).
Proof.
  intros H Ha Hc Hkd. apply corrupt_false in Hc as (n & Hp & Hn).
  destruct (tickMarket_effect env st st' H) as [Heff _].
  destruct (tick_effect_passes env st st' a n (Heff a Ha) Hp Hn)
    as [Hp' Hs].
  destruct (Hs k d Hkd) as (old & _ & Hnew).
  destruct (updateSeries_last_close d (dateNow env a / 1000)
              (stepped env a n) old) as (c & Hlast & Hclose).
  eexists _, c. split; [exact Hnew |]. split; [exact Hlast |].
  by rewrite Hclose.
Qed.

Lemma last_close_is_price_witness :
  ∃ st' l c, tickMarket env0 initial = Some st' ∧
             series (candleData st') "OIL" "15m" = Some l ∧
             last l = Some c ∧ prices st' !! "OIL"%string = Some (close c).
Proof.
  destruct (tickMarket_total env0 initial initial_wf) as (st' & E & _).
  destruct (last_close_is_price env0 initial st' "OIL" "15m" 900 E)
    as (l & c & H1 & H2 & H3);
    [by_evaluation | vm_compute; reflexivity | by_evaluation |].
  exists st', l, c. repeat split; assumption.
Defined.

Lemma sorted_lookup_lt (l : list Z) (i j : nat) (x y : Z) :
  StronglySorted Z.lt l → l !! i = Some x → l !! j = Some y →
  (i < j)%nat → x < y.
Proof.
  intros Hs. revert i j. induction Hs as [|z l Hs IH Hz]; intros i j Hi Hj Hij.
  - done.
  - destruct j as [|j]; [lia |]. destruct i as [|i]; simpl in *.
    + injection Hi as ->. rewrite Forall_forall in Hz. apply Hz.
      by eapply list_elem_of_lookup_2.
    + apply (IH i j); [done | done | lia].
Qed.

Lemma timeframes_positive k d : (k, d) ∈ timeframes → 0 < d.
Proof.
  intros H.
  assert (Forall (λ tf : string * Z, 0 < tf.2) timeframes) as Hall
    by (repeat constructor).
  rewrite Forall_forall in Hall. exact (Hall (k, d) H).
Qed.

(** The candles of a series stand for disjoint periods: in every state
    the tick loop can reach, a later candle of a series starts at least
    one full period of its timeframe after an earlier one. *)
Theorem periods_disjoint (st : State) (a k : string) (d : Z)
    (l : list Candle) (i j : nat) (ci cj : Candle) :
  reachable st → (k, d) ∈ timeframes →
  series (candleData st) a k = Some l →
  l !! i = Some ci → l !! j = Some cj → (i < j)%nat →
  time ci + d ≤ time cj.
Proof.
  intros Hr Hkd Hl Hi Hj Hij.
  destruct (reachable_ok st Hr a k d l Hkd Hl) as [_ Hs Ha _].
  pose proof (timeframes_positive k d Hkd) as Hd.
  assert (time ci < time cj) as Hlt.
  { apply (sorted_lookup_lt (time <$> l) i j); [done | | | done];
      rewrite list_lookup_fmap; [by rewrite Hi | by rewrite Hj]. }
  rewrite Forall_forall in Ha.
  assert ((d | time ci)) as [qi Hqi]
    by (apply Ha; by eapply list_elem_of_lookup_2).
  assert ((d | time cj)) as [qj Hqj]
    by (apply Ha; by eapply list_elem_of_lookup_2).
  rewrite Hqi, Hqj in *.
  apply Z.mul_lt_mono_pos_r in Hlt; [| done].
  replace (qi * d + d) with ((qi + 1) * d) by lia.
  apply Z.mul_le_mono_nonneg_r; lia.
Qed.

Lemma periods_disjoint_witness :
  ∃ st l ci cj,
    reachable st ∧ series (candleData st) "GOLD" "1m" = Some l ∧
    l !! 0%nat = Some ci ∧ l !! 1%nat = Some cj ∧
    time ci + 60 ≤ time cj.
Proof.
  assert ("GOLD"%string ∈ assets) as Ha by by_evaluation.
  assert (("1m"%string, 60) ∈ timeframes) as Htf by by_evaluation.
  destruct (tickMarket_total env0 initial initial_wf) as (st1 & E1 & Hwf1).
  destruct (tickMarket_total MoreExamples.env1 st1 Hwf1) as (st2 & E2 & _).
  pose proof (reach_tick _ _ _ (reach_tick _ _ _ reach_initial E1) E2) as Hr.
  destruct (tickMarket_effect env0 initial st1 E1) as [Heff1 _].
  specialize (Heff1 "GOLD"%string Ha). unfold tick_effect in Heff1.
  change (prices initial !! "GOLD"%string) with (Some (Fin 2034.50)) in Heff1.
  destruct Heff1 as [Hp1 Hs1]. destruct (Hs1 "1m"%string 60 Htf)
    as (l0 & Hl0 & Hl1).
  assert (l0 = []) as -> by (vm_compute in Hl0; congruence).
  destruct (tickMarket_effect MoreExamples.env1 st1 st2 E2) as [Heff2 _].
  specialize (Heff2 "GOLD"%string Ha). unfold tick_effect in Heff2.
  rewrite Hp1 in Heff2. destruct Heff2 as [_ Hs2].
  destruct (Hs2 "1m"%string 60 Htf) as (l1 & Hl1' & Hl2).
  rewrite Hl1 in Hl1'. injection Hl1' as <-.
  eexists st2, _, _, _. split; [exact Hr |]. split; [exact Hl2 |].
  split; [vm_compute; reflexivity |]. split; [vm_compute; reflexivity |].
  eapply (periods_disjoint st2 "GOLD" "1m" 60 _ 0 1 _ _ Hr Htf Hl2);
    [vm_compute; reflexivity | vm_compute; reflexivity | lia].
Defined.

End SeriesExtras.

(** ** From a deposit request to the balance *)

Section DepositApproval.
Import Examples.

Lemma find_app_r {A : Type} (P : A → bool) (l1 l2 : list A) :
  Forall (λ x, P x = false) l1 → find P (l1 ++ l2) = find P l2.
Proof.
  induction 1 as [|x l1 Hx _ IH]; [done |]. simpl. by rewrite Hx.
Qed.

(** A deposit reaches the balance through one approval. The row a deposit
    request inserts gets the next id of the table; when an admin approves
    that id and no storage fault strikes, the balance of the depositor
    becomes [balance + amount] for the amount requested, every other
    user is as before, and the row ends approved, with the kind, owner
    and amount it was inserted with. *)
Theorem deposit_then_approve (ts : Z) (auth admin : Auth) (amount : num)
    (method reference : string) (db : Db) :
  DbInv.wf db → auth_role admin = User.admin →
  let tx_id := transactions_seq db + 1 in
  let db1 := (Wallet.deposit ts auth amount method reference db).1 in
  ∃ db2,
    Wallet.approve no_faults admin tx_id db1 = (db2, Returned Success) ∧
    User.balance <$> users db2 !! auth_id auth =
      (λ u, add (User.balance u) amount) <$> users db !! auth_id auth ∧
    (∀ u, u ≠ auth_id auth → users db2 !! u = users db !! u) ∧
    (λ x, (Transaction.status x, Transaction.type x, Transaction.user_id x,
           Transaction.amount x)) <$> select_transaction tx_id db2
      = Some (Transaction.approved, Transaction.deposit, auth_id auth,
              amount).
Proof.
  intros Hwf Hadm tx_id db1.
  set (row := Wallet.new_transaction db (auth_id auth) Transaction.deposit
                amount method reference ts).
  assert (select_transaction tx_id db1 = Some row) as Hsel.
  { unfold select_transaction. subst db1. simpl. rewrite find_app_r.
    - simpl. subst tx_id. by rewrite Z.eqb_refl.
    - destruct Hwf as [_ _ _ H]. eapply Forall_impl; [exact H |].
      simpl. intros x Hx. subst tx_id. lia. }
  unfold Wallet.approve. rewrite Hadm, Hsel. simpl.
  rewrite (two_writes_in_transaction no_faults). simpl.
  eexists. split; [reflexivity |]. split; [| split].
  - simpl. rewrite lookup_alter_eq. by destruct (users db !! auth_id auth).
  - intros u Hne. simpl. by apply lookup_alter_ne.
  - pose proof (select_transaction_after_update
                  (Transaction.set_status Transaction.approved) tx_id db1 row
                  (λ _, eq_refl) Hsel) as Hupd.
    unfold select_transaction in *. simpl in *. by rewrite Hupd.
Qed.

Lemma deposit_then_approve_witness :
  ∃ db2,
    Wallet.approve no_faults auth_admin 3
      (Wallet.deposit 1700000500 auth7 (Fin 40) "mpesa" "REF7" db0).1
      = (db2, Returned Success) ∧
    User.balance <$> users db2 !! 7 = Some (Fin (10000 + 40)) ∧
    Transaction.status <$> select_transaction 3 db2
      = Some Transaction.approved.
Proof.
  destruct (deposit_then_approve 1700000500 auth7 auth_admin (Fin 40)
              "mpesa" "REF7" db0 db0_wf eq_refl)
    as (db2 & H1 & H2 & _ & H3).
  exists db2. split; [exact H1 |]. split.
  - change 7 with (auth_id auth7). rewrite H2. reflexivity.
  - change 3 with (transactions_seq db0 + 1).
    destruct (select_transaction (transactions_seq db0 + 1) db2); [| done].
    simpl in *. congruence.
Defined.

End DepositApproval.
